(** * InformationEntropy: paragraph information scores

    A shallow embedding of [src/main.py] and [src/glove.py].

    Numbers.  The program computes with NumPy floats.  A finite value is
    modelled by a real ([R]); the IEEE special values the program can
    produce (the result of [0/0], of [x/0], of an overflow, of the mean of
    an empty list) are kept as they are, in the type [npfloat].  The
    arithmetic of the scorer overflows to an infinity where a double does;
    the distances and their mean are taken over the reals.  The rounding
    of a finite result is not modelled: where a theorem names a finite
    value it is the value before rounding, and the theorems are kept to
    signs, equalities and orders that rounding does not change.

    Effects.  [get_glove_embedding] draws from Python's global random
    generator when a word is missing from the table, so every function that
    looks a word up threads the generator; NumPy raises [ValueError] when
    two arrays cannot be broadcast together, so those functions return a
    result or an error. *)

From Stdlib Require Import Reals Lra Lia ZArith Ascii String Sorted Permutation.
From stdpp Require Import base list gmap strings.

Local Open Scope R_scope.

(** ** NumPy floats *)

Inductive npfloat : Type :=
  | Fin (r : R)
  | PInf
  | NInf
  | NaN.

(** The least magnitude that rounding to nearest takes to an infinity:
    [2^1024 - 2^970], half a unit in the last place above the largest
    double. *)
Definition overflow_threshold : R := IZR (2 ^ 1024 - 2 ^ 970).

(** The double [2^1023]; the largest double is just below twice it. *)
Definition float_2_1023 : R := IZR (2 ^ 1023).

(** The result of an operation whose exact value is [r]: an infinity when
    [r] is at or beyond the overflow threshold, and [r] otherwise. *)
Definition np_round (r : R) : npfloat :=
  if Rle_dec overflow_threshold r then PInf
  else if Rle_dec r (- overflow_threshold) then NInf
  else Fin r.

(** [x + y] *)
Definition np_add (x y : npfloat) : npfloat :=
  match x, y with
  | Fin a, Fin b => np_round (a + b)
  | NaN, _ | _, NaN => NaN
  | PInf, NInf | NInf, PInf => NaN
  | PInf, _ | _, PInf => PInf
  | NInf, _ | _, NInf => NInf
  end.

(** [-x] *)
Definition np_neg (x : npfloat) : npfloat :=
  match x with
  | Fin a => Fin (- a)
  | PInf => NInf
  | NInf => PInf
  | NaN => NaN
  end.

(** [x - y] *)
Definition np_minus (x y : npfloat) : npfloat := np_add x (np_neg y).

(** [x * y] *)
Definition np_mul (x y : npfloat) : npfloat :=
  match x, y with
  | Fin a, Fin b => np_round (a * b)
  | NaN, _ | _, NaN => NaN
  | Fin a, PInf | PInf, Fin a =>
      if Rlt_dec 0 a then PInf else if Rlt_dec a 0 then NInf else NaN
  | Fin a, NInf | NInf, Fin a =>
      if Rlt_dec 0 a then NInf else if Rlt_dec a 0 then PInf else NaN
  | PInf, PInf | NInf, NInf => PInf
  | PInf, NInf | NInf, PInf => NaN
  end.

(** [x / y]; a zero divisor is [+0.0], as every divisor of this program
    is a sum of the list it divides or a positive constant. *)
Definition np_div (x y : npfloat) : npfloat :=
  match x, y with
  | NaN, _ | _, NaN => NaN
  | Fin a, Fin b =>
      if Req_dec_T b 0 then
        if Rlt_dec 0 a then PInf else if Rlt_dec a 0 then NInf else NaN
      else np_round (a / b)
  | Fin _, (PInf | NInf) => Fin 0
  | PInf, Fin b => if Rlt_dec b 0 then NInf else PInf
  | NInf, Fin b => if Rlt_dec b 0 then PInf else NInf
  | (PInf | NInf), (PInf | NInf) => NaN
  end.

(** [np.sum(xs)] of a one-dimensional array; the order of the additions,
    which matters to a double only through rounding and through the
    overflow of a sum of both signs, is not that of NumPy. *)
Definition np_sum (xs : list npfloat) : npfloat := foldr np_add (Fin 0) xs.

(** [scipy.special.entr]: [-x*log(x)] for [x > 0], [0] at [0], [-inf] for
    [x < 0], and [nan] for [nan]. *)
Definition entr (x : npfloat) : npfloat :=
  match x with
  | Fin a =>
      if Rlt_dec 0 a then np_round (- a * ln a)
      else if Req_dec_T a 0 then Fin 0 else NInf
  | PInf | NInf => NInf
  | NaN => NaN
  end.

(** [scipy.stats.entropy(pk, base=b)], with [qk] absent:
<<
    pk = 1.0*pk / np.sum(pk, axis=axis, keepdims=True)
    vec = special.entr(pk)
    S = np.sum(vec, axis=axis)
    S /= np.log(base)
>> *)
Definition entropy (pk : list npfloat) (base : R) : npfloat :=
  let total := np_sum pk in
  let pk' := map (fun p => np_div (np_mul (Fin 1) p) total) pk in
  let vec := map entr pk' in
  let S := np_sum vec in
  np_div S (Fin (ln base)).

(** ** [main.py]: the scorer *)

(** A NumPy array of one dimension. *)
Definition ndarray : Type := list R.

(** [information_of_statement(doc, equal_vocab_probability)] *)
Definition information_of_statement
    (doc : list (ndarray * npfloat)) (equal_vocab_probability : npfloat)
    : npfloat :=
  let ent := entropy (map snd doc) 2 in
  let max_ent :=
    entropy (map (fun _ => equal_vocab_probability) (seq 0 (length doc))) 2 in
  np_minus max_ent ent.

(** ** Errors and the random generator *)

Inductive pyerr : Type :=
  | ValueError   (** operands could not be broadcast together; empty range *)
  | IndexError.  (** list index out of range *)

Inductive res (A : Type) : Type :=
  | OK (a : A)
  | Err (e : pyerr).
Arguments OK {A} a.
Arguments Err {A} e.

Definition res_bind {A B} (m : res A) (k : A → res B) : res B :=
  match m with
  | OK a => k a
  | Err e => Err e
  end.

(** The state of Python's global generator: the draws it will produce. *)
Definition generator : Type := nat → Z.

Definition next_draw (g : generator) : Z * generator :=
  (g 0%nat, λ n, g (S n)).

(** A computation that may draw random numbers and may raise. *)
Definition M (A : Type) : Type := generator → res (A * generator).

Definition ret {A} (a : A) : M A := λ g, OK (a, g).

Definition bind {A B} (m : M A) (k : A → M B) : M B :=
  λ g, match m g with
       | OK (a, g') => k a g'
       | Err e => Err e
       end.

Definition lift {A} (r : res A) : M A :=
  λ g, match r with
       | OK a => OK (a, g)
       | Err e => Err e
       end.

Notation "'let*' x ':=' m 'in' k" := (bind m (λ x, k))
  (at level 10, x pattern, m at level 100, k at level 200).

(** [random.randint(a, b)]: [a + randbelow(b - a + 1)], where the draw is
    reduced below the width of the range; an empty range raises. *)
Definition randint (a b : Z) : M Z :=
  λ g, if decide (a ≤ b)%Z
       then let (d, g') := next_draw g in OK ((a + d mod (b - a + 1))%Z, g')
       else Err ValueError.

(** ** NumPy arrays *)

(** [a - b] on one-dimensional arrays, with broadcasting: the shapes agree,
    or one of them is [(1,)]; anything else raises [ValueError]. *)
Definition np_sub (a b : ndarray) : res ndarray :=
  if decide (length a = length b) then OK (zip_with Rminus a b)
  else if decide (length a = 1%nat) then OK (map (λ y, hd 0 a - y) b)
  else if decide (length b = 1%nat) then OK (map (λ x, x - hd 0 b) a)
  else Err ValueError.

Definition Rsum (xs : list R) : R := foldr Rplus 0 xs.

(** [np.linalg.norm(x)] of a one-dimensional array: [sqrt(sum(x*x))] *)
Definition norm (x : ndarray) : R := sqrt (Rsum (map (λ c, c * c) x)).

(** [np.average(xs)] of a list of finite floats; the mean of an empty list
    is [nan] (NumPy warns and does not raise). *)
Definition np_average (xs : list R) : npfloat :=
  match xs with
  | [] => NaN
  | _ => Fin (Rsum xs / INR (length xs))
  end.

(** [l[:k]], Python's slice: a negative [k] counts from the end. *)
Definition slice_to {A} (k : Z) (l : list A) : list A :=
  if decide (0 ≤ k)%Z then take (Z.to_nat k) l
  else take (length l - Z.to_nat (- k)) l.

(** [l[i]] for an index that is not negative *)
Definition index {A} (l : list A) (i : nat) : res A :=
  match l !! i with
  | Some x => OK x
  | None => Err IndexError
  end.

(** [[f(x) for x in l]] where [f] may raise *)
Fixpoint res_map {A B} (f : A → res B) (l : list A) : res (list B) :=
  match l with
  | [] => OK []
  | x :: l' =>
      res_bind (f x) (λ y, res_bind (res_map f l') (λ ys, OK (y :: ys)))
  end.

(** [np.argsort(ds)]: the indices of [ds] in ascending order of value.
    Equal values keep their order here; the values selected through the
    indices do not depend on how ties are ordered. *)
Fixpoint insert_sorted (x : nat * R) (l : list (nat * R)) : list (nat * R) :=
  match l with
  | [] => [x]
  | y :: l' =>
      if Rle_dec x.2 y.2 then x :: y :: l' else y :: insert_sorted x l'
  end.

Definition sort_pairs (l : list (nat * R)) : list (nat * R) :=
  foldr insert_sorted [] l.

Definition argsort (ds : list R) : list nat :=
  map fst (sort_pairs (imap (λ i d, (i, d)) ds)).

(** ** [glove.py] *)

(** [get_glove_embedding(word)]; [glove_embeddings] is the table loaded
    from the GloVe file. *)
Definition get_glove_embedding
    (glove_embeddings : gmap string ndarray) (word : string) : M ndarray :=
  match glove_embeddings !! word with
  | Some v => ret v
  | None =>
      let* x := randint 0 600 in
      ret (replicate 50 (IZR x))
  end.

(** ** [main.py]: transitions, corpus, density and the scoring loop *)

Section Pipeline.

Variable glove_embeddings : gmap string ndarray.

(** The body of the loop of [get_connections], over the pairs of
    [zip(paragraph, paragraph[1:])]. *)
Fixpoint get_connections_loop
    (pairs : list (string * string)) (connections_ : list ndarray)
    : M (list ndarray) :=
  match pairs with
  | [] => ret connections_
  | (curr_w, next_w) :: rest =>
      let* e1 := get_glove_embedding glove_embeddings curr_w in
      let* e2 := get_glove_embedding glove_embeddings next_w in
      let* connection := lift (np_sub e1 e2) in
      get_connections_loop rest (connections_ ++ [connection])
  end.

(** [get_connections(paragraph)], for any sequence of words *)
Definition get_connections (paragraph : list string) : M (list ndarray) :=
  get_connections_loop (zip paragraph (tail paragraph)) [].

(** The items of a Python [str]: its characters, each a [str] of length 1.
    A [str] is a [string] here, one [ascii] for each character. *)
Fixpoint chars (s : string) : list string :=
  match s with
  | EmptyString => []
  | String c s' => String c EmptyString :: chars s'
  end.

(** [s.split(sep)] for a separator of one character *)
Fixpoint split (sep : ascii) (s : string) : list string :=
  match s with
  | EmptyString => [EmptyString]
  | String c s' =>
      if decide (c = sep) then EmptyString :: split sep s'
      else match split sep s' with
           | [] => [String c EmptyString]
           | p :: ps => String c p :: ps
           end
  end.

Definition newline : ascii := Ascii.ascii_of_nat 10.

(** The loop of [process_text] over the paragraphs. *)
Fixpoint process_text_loop
    (paragraphs : list string) (connections_ : list ndarray)
    : M (list ndarray) :=
  match paragraphs with
  | [] => ret connections_
  | paragraph :: rest =>
      if decide (String.length paragraph < 100)%nat
      then process_text_loop rest connections_
      else
        let* cs := get_connections (chars paragraph) in
        process_text_loop rest (connections_ ++ cs)
  end.

(** [process_text(doc)] *)
Definition process_text (doc : string) : M (list ndarray) :=
  process_text_loop (split newline doc) [].

(** [find_k_closest_avg(arrays, target, k)] *)
Definition find_k_closest_avg
    (arrays : list ndarray) (target : ndarray) (k : Z) : res npfloat :=
  res_bind
    (res_map (λ arr, res_bind (np_sub arr target) (λ d, OK (norm d))) arrays)
    (λ distances,
       let k_indices := slice_to k (argsort distances) in
       res_bind (res_map (index distances) k_indices)
         (λ selected, OK (np_average selected))).

(** [[(d, find_k_closest_avg(connections, d, 3)) for d in ...]] *)
Fixpoint density_pairs
    (connections : list ndarray) (paragraph_connections : list ndarray)
    : res (list (ndarray * npfloat)) :=
  match paragraph_connections with
  | [] => OK []
  | d :: rest =>
      res_bind (find_k_closest_avg connections d 3) (λ p,
        res_bind (density_pairs connections rest) (λ ps, OK ((d, p) :: ps)))
  end.

(** [tokenized_probabilities(paragraph, connections)] *)
Definition tokenized_probabilities
    (paragraph : list string) (connections : list ndarray)
    : M (list (ndarray * npfloat)) :=
  let* paragraph_connections := get_connections paragraph in
  lift (density_pairs connections paragraph_connections).

(** The scoring loop at the end of [main.py], over
    [enumerate(document.split("\n"))]; the lines it prints are collected
    as pairs of a paragraph index and an information score. *)
Fixpoint scoring_loop
    (connections : list ndarray) (docs : list (nat * string))
    (printed : list (nat * npfloat)) : M (list (nat * npfloat)) :=
  match docs with
  | [] => ret printed
  | (idx, doc) :: rest =>
      if decide (String.length doc < 100)%nat
      then scoring_loop connections rest printed
      else
        let* pairs := tokenized_probabilities (chars doc) connections in
        let info :=
          information_of_statement pairs
            (Fin (1 / INR (String.length doc))) in
        scoring_loop connections rest (printed ++ [(idx, info)])
  end.

Definition enumerate {A} (l : list A) : list (nat * A) :=
  imap (λ i x, (i, x)) l.

(** The module as a whole: the corpus, then the scoring loop. *)
Definition main (document : string) : M (list (nat * npfloat)) :=
  let* connections := process_text document in
  scoring_loop connections (enumerate (split newline document)) [].

End Pipeline.

(** ** [main.py] and [glove.py]: the other functions *)

(** [euclidean_norm(array)] *)
Definition euclidean_norm (array : ndarray) : R := norm array.

Definition space : ascii := Ascii.ascii_of_nat 32.

Section GloveFile.

(** NumPy's conversion of a field of the file to [float32]; [None] for a
    field that is not a number. *)
Variable float32 : string → option R.

(** [np.asarray(fields, dtype='float32')] *)
Definition np_asarray_float32 (fields : list string) : res ndarray :=
  res_map (λ field, match float32 field with
                    | Some x => OK x
                    | None => Err ValueError
                    end) fields.

(** The loop of [load_glove_file] over the lines of the opened file. *)
Fixpoint load_glove_file_loop
    (lines : list string) (model : gmap string ndarray)
    : res (gmap string ndarray) :=
  match lines with
  | [] => OK model
  | line :: rest =>
      let splitLine := split space line in
      res_bind (index splitLine 0) (λ word,
        res_bind (np_asarray_float32 (tail splitLine)) (λ embedding,
          load_glove_file_loop rest (<[word := embedding]> model)))
  end.

(** [load_glove_file(glove_file)], from the lines of the file on. *)
Definition load_glove_file (lines : list string)
    : res (gmap string ndarray) :=
  load_glove_file_loop lines ∅.

End GloveFile.

(** * The vocabulary of the properties *)

(** A score that is a number and is not negative. *)
Definition score_nonneg (x : npfloat) : Prop :=
  match x with
  | Fin s => 0 <= s
  | PInf => True
  | NInf | NaN => False
  end.

(** One transition: the difference of a lookup of the first word and a
    lookup of the second one, made one after the other. *)
Definition transition_of
    (table : gmap string ndarray) (w1 w2 : string) (c : ndarray) : Prop :=
  ∃ g1 e1 g2 e2 g3,
    get_glove_embedding table w1 g1 = OK (e1, g2) ∧
    get_glove_embedding table w2 g2 = OK (e2, g3) ∧
    c = zip_with Rminus e1 e2.

(** The Euclidean distance between two vectors of the same dimension, as
    the specification has it. *)
Definition euclidean_distance (a b : ndarray) : R :=
  sqrt (Rsum (zip_with (λ x y, (x - y) * (x - y)) a b)).

(** The distances in ascending order. *)
Definition sorted_values (ds : list R) : list R :=
  map snd (sort_pairs (imap (λ i d, (i, d)) ds)).

(** The order [argsort] sorts the indexed values by. *)
Definition le_value (x y : nat * R) : Prop := x.2 <= y.2.

(** The [k] smallest of the values [ds]: a list of [k] of them, each below
    every value that is left out. *)
Definition k_smallest (k : nat) (ds smallest : list R) : Prop :=
  length smallest = k ∧
  ∃ rest, smallest ++ rest ≡ₚ ds ∧
          ∀ a b, a ∈ smallest → b ∈ rest → a <= b.

(** A paragraph the two loops do not skip. *)
Definition qualifies (paragraph : string) : Prop :=
  (100 ≤ String.length paragraph)%nat.

Global Instance qualifies_dec (p : string) : Decision (qualifies p).
Proof. unfold qualifies. apply _. Defined.

(** The enumerated paragraphs the scoring loop does not skip. *)
Definition qualifying (docs : list (nat * string)) : list (nat * string) :=
  filter (λ d, qualifies d.2) docs.

(** A vector of the dimension of [glove.6B.50d.txt]. *)
Definition dim50 (v : ndarray) : Prop := length v = 50%nat.

(** Two generators that give the same fallback values: at every draw,
    the same number once reduced below the 601 values of
    [randint(0, 600)]. *)
Definition same_draws (g1 g2 : generator) : Prop :=
  ∀ n, ((g1 n) mod 601 = (g2 n) mod 601)%Z.

(** Two outcomes that cannot be told apart: the same value, or the same
    error. *)
Definition same_outcome {A} (r1 r2 : res (A * generator)) : Prop :=
  match r1, r2 with
  | OK (a1, g1), OK (a2, g2) => a1 = a2 ∧ same_draws g1 g2
  | Err e1, Err e2 => e1 = e2
  | _, _ => False
  end.

(** A computation that gives the same outcome for the same fallback values. *)
Definition respects {A} (m : M A) : Prop :=
  ∀ g1 g2, same_draws g1 g2 → same_outcome (m g1) (m g2).

(** What a run returns, without the final state of the generator. *)
Definition returned {A} (r : res (A * generator)) : res A :=
  match r with
  | OK (a, _) => OK a
  | Err e => Err e
  end.

(** The generator after [n] draws. *)
Definition advance (n : nat) (g : generator) : generator :=
  λ i, g (n + i)%nat.

(** The number of draws a lookup of [word] makes: one when the word is
    missing from the table. *)
Definition draws_of (table : gmap string ndarray) (word : string) : nat :=
  match table !! word with
  | Some _ => 0
  | None => 1
  end.

(** The number of draws the lookups of a list of pairs of words make. *)
Fixpoint draws_of_pairs
    (table : gmap string ndarray) (pairs : list (string * string)) : nat :=
  match pairs with
  | [] => 0
  | (w1, w2) :: rest =>
      draws_of table w1 + draws_of table w2 + draws_of_pairs table rest
  end.


(** The number of transitions of the paragraphs that are not skipped:
    one less than the number of characters, for each of them. *)
Fixpoint corpus_size (paragraphs : list string) : nat :=
  match paragraphs with
  | [] => 0
  | p :: rest =>
      if decide (qualifies p)
      then (String.length p - 1) + corpus_size rest
      else corpus_size rest
  end.



(** The string has the character. *)
Fixpoint has_char (c : ascii) (s : string) : Prop :=
  match s with
  | EmptyString => False
  | String c' s' => c' = c ∨ has_char c s'
  end.

(** [sep.join(pieces)] for a separator of one character *)
Fixpoint join (sep : ascii) (pieces : list string) : string :=
  match pieces with
  | [] => EmptyString
  | [p] => p
  | p :: rest => String.append p (String sep (join sep rest))
  end.

(** The word of a line of the GloVe file: what comes before the first
    space. *)
Definition first_field (line : string) : string :=
  hd EmptyString (split space line).

(** The fields of a line of the GloVe file that come after the word. *)
Definition other_fields (line : string) : list string :=
  tail (split space line).


(** The number of draws the lookups of the qualifying paragraphs make,
    going once through each of them character by character. *)
Fixpoint draws_of_paragraphs
    (table : gmap string ndarray) (paragraphs : list string) : nat :=
  match paragraphs with
  | [] => 0
  | p :: rest =>
      (if decide (qualifies p)
       then draws_of_pairs table (zip (chars p) (tail (chars p)))
       else 0)
      + draws_of_paragraphs table rest
  end.


(** A float that is not [nan] and not negative; it may be [+inf]. *)
Definition nonneg_float (x : npfloat) : Prop :=
  match x with
  | Fin r => 0 <= r
  | PInf => True
  | NInf | NaN => False
  end.

(** The opening of the first paragraph of [document], 127 characters. *)
Definition lion_paragraph : string :=
  "The lion (Panthera leo) is a large cat of the genus Panthera, native to Africa and India. It has a muscular, broad-chested body".

(** * Properties *)

(** ** The model on small inputs *)

Example split_two_newlines :
  split newline
    (String.append "ab" (String newline (String.append "c" (String newline ""))))
  = ["ab"; "c"; ""].
Proof. reflexivity. Qed.

Example slice_to_beyond_the_end : slice_to 5 [10; 20]%nat = [10; 20]%nat.
Proof. reflexivity. Qed.

Example slice_to_zero : slice_to 0 [10; 20]%nat = [].
Proof. reflexivity. Qed.

Example slice_to_negative : slice_to (-1) [10; 20; 30]%nat = [10; 20]%nat.
Proof. reflexivity. Qed.

Example np_sub_broadcast : np_sub [5] [1; 2] = OK [5 - 1; 5 - 2].
Proof. reflexivity. Qed.

Example np_sub_mismatch : np_sub [1; 2; 3] [1; 2] = Err ValueError.
Proof. reflexivity. Qed.

Example np_average_empty : np_average [] = NaN.
Proof. reflexivity. Qed.

(** The scenario of the specification: the table
    [{"a": [0,0], "b": [1,0], "c": [0,1]}] and the words [a b c] give the
    transitions [[-1,0]] and [[1,-1]], and draw nothing. *)
Example get_connections_abc (g : generator) :
  get_connections
    (<["a" := [0; 0]]> (<["b" := [1; 0]]> (<["c" := [0; 1]]> ∅)))
    ["a"; "b"; "c"] g
  = OK ([[0 - 1; 0 - 0]; [1 - 0; 0 - 1]], g).
Proof.
  unfold get_connections. cbn [zip zip_with tail get_connections_loop].
  unfold bind, get_glove_embedding.
  by repeat (rewrite ?lookup_insert_eq, ?lookup_insert_ne by done; cbn).
Qed.

(** ** NumPy floats *)

Lemma overflow_threshold_large : 4 <= overflow_threshold.
Proof. apply (IZR_le 4). vm_compute. discriminate. Qed.

Lemma float_2_1023_pos : 0 < float_2_1023.
Proof. apply (IZR_lt 0). vm_compute. reflexivity. Qed.

Lemma float_2_1023_finite : float_2_1023 < overflow_threshold.
Proof. apply IZR_lt. vm_compute. reflexivity. Qed.

(** Twice [2^1023] is [2^1024], which no double holds. *)
Lemma float_2_1023_twice : overflow_threshold <= float_2_1023 + float_2_1023.
Proof.
  unfold overflow_threshold, float_2_1023. rewrite <-plus_IZR.
  apply IZR_le. vm_compute. discriminate.
Qed.

Lemma np_round_Fin (r : R) :
  - overflow_threshold < r < overflow_threshold → np_round r = Fin r.
Proof.
  intros Hr. unfold np_round.
  destruct (Rle_dec overflow_threshold r); first lra.
  destruct (Rle_dec r (- overflow_threshold)); first lra. done.
Qed.

Lemma np_round_small (r : R) : -4 < r < 4 → np_round r = Fin r.
Proof.
  intros Hr. apply np_round_Fin. pose proof overflow_threshold_large. lra.
Qed.

Lemma np_round_PInf (r : R) : overflow_threshold <= r → np_round r = PInf.
Proof. intros Hr. unfold np_round. by destruct (Rle_dec overflow_threshold r). Qed.

Lemma np_add_NaN_r (x : npfloat) : np_add x NaN = NaN.
Proof. by destruct x. Qed.

Lemma np_minus_NaN_r (x : npfloat) : np_minus x NaN = NaN.
Proof. by destruct x. Qed.

Lemma np_sum_NaN (xs : list npfloat) : NaN ∈ xs → np_sum xs = NaN.
Proof.
  induction xs as [|x xs IH]; intros Hin.
  - by apply elem_of_nil in Hin.
  - apply elem_of_cons in Hin as [<-|Hin]; simpl; first done.
    rewrite (IH Hin). apply np_add_NaN_r.
Qed.

Lemma np_add_zero_zero : np_add (Fin 0) (Fin 0) = Fin 0.
Proof.
  cbn [np_add]. rewrite np_round_small by lra. f_equal. lra.
Qed.

Lemma np_sum_zeros (ws : list R) :
  Forall (λ w, w = 0) ws → np_sum (map Fin ws) = Fin 0.
Proof.
  induction 1 as [|w ws -> _ IH]; first done.
  cbn [map np_sum foldr] in *. fold (np_sum (map Fin ws)).
  rewrite IH. apply np_add_zero_zero.
Qed.

Lemma ln_2_pos : 0 < ln 2.
Proof. pose proof ln_lt_2. lra. Qed.

Lemma ln_2_le_1 : ln 2 <= 1.
Proof.
  pose proof (exp_ineq1_le (ln 2)) as H.
  rewrite exp_ln in H; lra.
Qed.

Lemma np_div_zero_zero (a b : R) :
  a = 0 → b = 0 → np_div (Fin a) (Fin b) = NaN.
Proof.
  intros -> ->. simpl.
  destruct (Req_dec_T 0 0); last done.
  destruct (Rlt_dec 0 0); first lra. done.
Qed.

Lemma np_div_zero (b : R) : b ≠ 0 → np_div (Fin 0) (Fin b) = Fin 0.
Proof.
  intros Hb. cbn [np_div]. destruct (Req_dec_T b 0); first done.
  replace (0 / b) with 0 by (unfold Rdiv; ring).
  apply np_round_small. lra.
Qed.

Lemma entropy_nil (base : R) : 0 < ln base → entropy [] base = Fin 0.
Proof.
  intros Hb. unfold entropy. simpl np_sum. cbn [map].
  apply np_div_zero. lra.
Qed.

(** The entropy of a non-empty list of zero weights is [nan]: each weight
    is divided by the zero sum. *)
Lemma entropy_zero_weights (ws : list R) (base : R) :
  ws ≠ [] → Forall (λ w, w = 0) ws → entropy (map Fin ws) base = NaN.
Proof.
  intros Hne Hz. unfold entropy.
  rewrite (np_sum_zeros ws Hz).
  destruct ws as [|w ws]; first done.
  apply Forall_cons in Hz as [-> _].
  cbn [map]. cbn [np_mul].
  rewrite (np_round_small (1 * 0)) by lra.
  rewrite (np_div_zero_zero (1 * 0) 0); [|lra|done].
  cbn [entr]. by cbn [np_sum foldr np_add np_div].
Qed.

(** A sum of doubles that are all at least [2^1023]: the double itself
    when there is one of them, an infinity when there are more. *)
Lemma np_sum_large (ws : list R) :
  ws ≠ [] → Forall (λ w, float_2_1023 <= w < overflow_threshold) ws →
  np_sum (map Fin ws) = PInf ∨
  (∃ w, ws = [w] ∧ np_sum (map Fin ws) = Fin (w + 0)).
Proof.
  intros Hne Hall. pose proof float_2_1023_pos as Hp.
  pose proof float_2_1023_twice as Ht.
  induction Hall as [|w ws Hw Hall IH]; first done.
  cbn [map np_sum foldr]. fold (np_sum (map Fin ws)).
  destruct ws as [|w' ws].
  - right. exists w. split; first done.
    cbn [map np_sum foldr np_add]. apply np_round_Fin. lra.
  - left. destruct (IH ltac:(done)) as [->|(w0 & E & ->)]; first done.
    cbn [np_add]. apply np_round_PInf.
    apply Forall_cons in Hall as [Hw' _].
    injection E as -> _. lra.
Qed.

Lemma np_sum_overflow (ws : list R) :
  (2 ≤ length ws)%nat →
  Forall (λ w, float_2_1023 <= w < overflow_threshold) ws →
  np_sum (map Fin ws) = PInf.
Proof.
  intros Hlen Hall.
  assert (Hne : ws ≠ []) by (intros ->; simpl in Hlen; lia).
  destruct (np_sum_large ws Hne Hall) as [H|(w & -> & _)]; first done.
  simpl in Hlen. lia.
Qed.

(** When the sum of the weights overflows every weight is normalised to
    [0], and so is the entropy. *)
Lemma entropy_overflow (ws : list R) (base : R) :
  (2 ≤ length ws)%nat →
  Forall (λ w, float_2_1023 <= w < overflow_threshold) ws →
  ln base ≠ 0 →
  entropy (map Fin ws) base = Fin 0.
Proof.
  intros Hlen Hall Hb. unfold entropy.
  rewrite (np_sum_overflow ws Hlen Hall).
  assert (Hvec :
    map entr (map (λ p, np_div (np_mul (Fin 1) p) PInf) (map Fin ws))
    = map Fin (map (λ _, 0) ws)).
  { clear Hlen. pose proof float_2_1023_pos.
    induction Hall as [|w ws Hw _ IH]; first done.
    cbn [map]. rewrite IH. f_equal.
    cbn [np_mul]. rewrite np_round_Fin by lra. cbn [np_div entr].
    destruct (Rlt_dec 0 0); first lra.
    by destruct (Req_dec_T 0 0). }
  rewrite Hvec, np_sum_zeros.
  - by apply np_div_zero.
  - clear. induction ws; by constructor.
Qed.

(** Two equal weights: the entropy is one bit. *)
Lemma entropy_two_ones : entropy [Fin 1; Fin 1] 2 = Fin 1.
Proof.
  pose proof ln_2_pos as Hl0. pose proof ln_2_le_1 as Hl1.
  assert (Hhalf : ln (1 / 2) = - ln 2).
  { replace (1 / 2) with (/ 2) by lra. apply ln_Rinv. lra. }
  unfold entropy. cbn [np_sum foldr map np_add np_mul].
  rewrite (np_round_small (1 + 0)) by lra.
  cbn [np_add]. rewrite (np_round_small (1 + (1 + 0))) by lra.
  rewrite (np_round_small (1 * 1)) by lra.
  cbn [np_div]. destruct (Req_dec_T (1 + (1 + 0)) 0); first lra.
  replace (1 * 1 / (1 + (1 + 0))) with (1 / 2) by lra.
  rewrite (np_round_small (1 / 2)) by lra.
  cbn [entr]. destruct (Rlt_dec 0 (1 / 2)); last lra.
  rewrite Hhalf.
  replace (- (1 / 2) * - ln 2) with (ln 2 / 2) by lra.
  rewrite (np_round_small (ln 2 / 2)) by lra.
  cbn [np_add]. rewrite (np_round_small (ln 2 / 2 + 0)) by lra.
  cbn [np_add]. rewrite (np_round_small (ln 2 / 2 + (ln 2 / 2 + 0))) by lra.
  cbn [np_div]. destruct (Req_dec_T (ln 2) 0); first lra.
  replace ((ln 2 / 2 + (ln 2 / 2 + 0)) / ln 2) with 1 by (field; lra).
  apply np_round_small. lra.
Qed.

(** ** Sums of reals *)

Lemma Rsum_Permutation (xs ys : list R) : xs ≡ₚ ys → Rsum xs = Rsum ys.
Proof. induction 1; simpl; lra. Qed.

Lemma Rsum_nonneg (xs : list R) : Forall (λ x, 0 <= x) xs → 0 <= Rsum xs.
Proof. induction 1; simpl; lra. Qed.

Lemma INR_length_pos {A} (l : list A) : l ≠ [] → 0 < INR (length l).
Proof.
  intros Hne. destruct l as [|x l]; first done.
  apply lt_0_INR. simpl. lia.
Qed.

(** ** The scorer *)

Lemma information_of_statement_zero_weights
    (doc : list (ndarray * npfloat)) (ws : list R) (q : npfloat) :
  doc ≠ [] → map snd doc = map Fin ws → Forall (λ w, w = 0) ws →
  information_of_statement doc q = NaN.
Proof.
  intros Hne Hws Hz. unfold information_of_statement.
  rewrite Hws, entropy_zero_weights; [|by destruct doc, ws|done].
  apply np_minus_NaN_r.
Qed.

Lemma uniform_weights (q : R) (n k : nat) :
  map (λ _ : nat, Fin q) (seq k n) = map Fin (replicate n q).
Proof.
  revert k. induction n as [|n IH]; intros k; first done.
  cbn [seq map replicate]. by rewrite IH.
Qed.

(** C2, as the claim states it, fails: for the density proxies [0, 0] the
    score is not [0]. *)
Lemma C2_zero_proxies_score_not_zero :
  information_of_statement
    [([-1; 0], Fin 0); ([1; -1], Fin 0)] (Fin (1 / 3)) ≠ Fin 0.
Proof.
  rewrite (information_of_statement_zero_weights _ [0; 0]); [done..|].
  by repeat constructor.
Qed.

(** C2, amended: for a paragraph whose density proxies are [0, 0] the
    scorer returns [nan], whatever [equal_vocab_probability] is: the
    weights are divided by their sum, which is [0]. *)
Theorem C2_zero_proxies_score_nan (v1 v2 : ndarray) (q : npfloat) :
  information_of_statement [(v1, Fin 0); (v2, Fin 0)] q = NaN.
Proof.
  apply (information_of_statement_zero_weights _ [0; 0]); [done..|].
  by repeat constructor.
Qed.

Lemma np_minus_zero_zero : np_minus (Fin 0) (Fin 0) = Fin 0.
Proof.
  unfold np_minus, np_neg, np_add.
  replace (0 + - 0) with 0 by lra. apply np_round_small. lra.
Qed.

(** C3, as the claim states it, fails: on the empty sequence the scorer
    returns the value [0]. *)
Lemma C3_empty_input_returns_zero :
  information_of_statement [] (Fin 1) = Fin 0.
Proof.
  unfold information_of_statement. cbn [map length seq].
  rewrite entropy_nil by apply ln_2_pos.
  apply np_minus_zero_zero.
Qed.

(** C3, amended: for the empty sequence the scorer returns [0], for every
    [equal_vocab_probability]: both entropies are sums over no element. *)
Theorem C3_empty_input_score (q : npfloat) :
  information_of_statement [] q = Fin 0.
Proof.
  unfold information_of_statement. cbn [map length seq].
  rewrite entropy_nil by apply ln_2_pos.
  apply np_minus_zero_zero.
Qed.

(** C4, as the claim states it, fails: one proxy equal to [0] is a
    non-empty sequence of non-negative proxies, and its score is [nan],
    which is not [>= 0]. *)
Lemma C4_zero_proxy_score_not_nonneg :
  ¬ score_nonneg (information_of_statement [([0; 0], Fin 0)] (Fin 1)).
Proof.
  rewrite (information_of_statement_zero_weights _ [0]); [|done..|].
  - by intros [].
  - by repeat constructor.
Qed.

(** C4, amended: the scorer gives no guarantee of sign.  For a non-empty
    sequence of proxies that are all zero the score is [nan]; for two or
    more proxies so large that their sum overflows (each at least
    [2^1023]) every normalised weight is [0], the entropy of the proxies
    is [0] and the score is the whole baseline, also when the proxies are
    all equal.  What the score is for other proxies depends on the
    rounding of the divisions and logarithms, and nothing is stated
    about it. *)
Theorem C4_score_zero_or_overflowing_proxies
    (doc : list (ndarray * npfloat)) (ws : list R) (q : npfloat) :
  doc ≠ [] → map snd doc = map Fin ws →
  (Forall (λ w, w = 0) ws → information_of_statement doc q = NaN) ∧
  ((2 ≤ length doc)%nat →
   Forall (λ w, float_2_1023 <= w < overflow_threshold) ws →
   information_of_statement doc q
   = np_minus (entropy (map (λ _, q) (seq 0 (length doc))) 2) (Fin 0)).
Proof.
  intros Hne Hws. split.
  - intros Hz. by apply (information_of_statement_zero_weights _ ws).
  - intros Hlen Hall. unfold information_of_statement.
    assert (Hl : length doc = length ws).
    { by rewrite <-(length_map snd doc), Hws, length_map. }
    pose proof ln_2_pos.
    rewrite Hws, (entropy_overflow ws 2); [done|lia|done|lra].
Qed.

Lemma C4_score_zero_or_overflowing_proxies_witness :
  information_of_statement
    [([], Fin float_2_1023); ([], Fin float_2_1023)] (Fin 1)
  = np_minus (entropy [Fin 1; Fin 1] 2) (Fin 0).
Proof.
  destruct (C4_score_zero_or_overflowing_proxies
              [([], Fin float_2_1023); ([], Fin float_2_1023)]
              [float_2_1023; float_2_1023] (Fin 1)) as [_ H];
    [done | done |].
  apply H.
  - simpl. lia.
  - pose proof float_2_1023_finite. repeat constructor; lra.
Defined.

(** C5, as the claim states it, fails: on two equal proxies the score is
    [-1] with [equal_vocab_probability = 2^1023], whose sum with itself
    overflows, and [0] with [equal_vocab_probability = 1]. *)
Lemma C5_large_probability_changes_score :
  information_of_statement [([], Fin 1); ([], Fin 1)] (Fin float_2_1023)
    = Fin (-1) ∧
  information_of_statement [([], Fin 1); ([], Fin 1)] (Fin 1) = Fin 0 ∧
  information_of_statement [([], Fin 1); ([], Fin 1)] (Fin float_2_1023)
    ≠ information_of_statement [([], Fin 1); ([], Fin 1)] (Fin 1).
Proof.
  assert (H1 : information_of_statement
                 [([], Fin 1); ([], Fin 1)] (Fin float_2_1023) = Fin (-1)).
  { unfold information_of_statement. cbn [map snd length seq].
    pose proof ln_2_pos. pose proof float_2_1023_finite.
    change [Fin float_2_1023; Fin float_2_1023]
      with (map Fin [float_2_1023; float_2_1023]).
    rewrite (entropy_overflow [float_2_1023; float_2_1023] 2);
      [|simpl; lia|repeat constructor; lra|lra].
    rewrite entropy_two_ones. unfold np_minus, np_neg, np_add.
    replace (0 + - (1)) with (-1) by lra. apply np_round_small. lra. }
  assert (H2 : information_of_statement
                 [([], Fin 1); ([], Fin 1)] (Fin 1) = Fin 0).
  { unfold information_of_statement. cbn [map snd length seq].
    rewrite entropy_two_ones. unfold np_minus, np_neg, np_add.
    replace (1 + - (1)) with 0 by lra. apply np_round_small. lra. }
  split; first exact H1. split; first exact H2.
  rewrite H1, H2. intros [= E]. lra.
Qed.

(** C5, amended: [equal_vocab_probability] is not inert.  The baseline is
    the entropy of [n] copies of it, computed in floating point: for a
    sequence of two or more pairs and a value so large that the sum of the
    copies overflows (at least [2^1023]) every normalised copy is [0], the
    baseline is [0] and not [log2 n], and the score is [0] minus the
    entropy of the proxies.  For the other positive values the baseline
    is [log2 n] up to rounding only, and nothing is stated about the
    equality of two scores. *)
Theorem C5_large_equal_vocab_probability
    (doc : list (ndarray * npfloat)) (p : R) :
  (2 ≤ length doc)%nat → float_2_1023 <= p < overflow_threshold →
  entropy (map (λ _, Fin p) (seq 0 (length doc))) 2 = Fin 0 ∧
  information_of_statement doc (Fin p)
  = np_minus (Fin 0) (entropy (map snd doc) 2).
Proof.
  intros Hlen Hp.
  assert (Hbase : entropy (map (λ _, Fin p) (seq 0 (length doc))) 2 = Fin 0).
  { pose proof ln_2_pos. rewrite uniform_weights.
    apply entropy_overflow; [by rewrite length_replicate| |lra].
    by apply Forall_replicate. }
  split; first exact Hbase.
  unfold information_of_statement. by rewrite Hbase.
Qed.

Lemma C5_large_equal_vocab_probability_witness :
  information_of_statement [([1; 2], Fin 4); ([0; 1], Fin 5)]
    (Fin float_2_1023)
  = np_minus (Fin 0) (entropy [Fin 4; Fin 5] 2).
Proof.
  apply (C5_large_equal_vocab_probability
           [([1; 2], Fin 4); ([0; 1], Fin 5)] float_2_1023).
  - simpl. lia.
  - pose proof float_2_1023_finite. lra.
Defined.

(** ** The embedding lookup *)

Lemma randint_0_600 (g : generator) :
  ∃ x, randint 0 600 g = OK (x, (λ n, g (S n))) ∧ (0 ≤ x ≤ 600)%Z.
Proof.
  unfold randint, next_draw.
  destruct (decide (0 ≤ 600)%Z) as [_|Hn]; last lia.
  eexists. split; first done.
  pose proof (Z.mod_pos_bound (g 0%nat) (600 - 0 + 1)) as Hb. lia.
Qed.

Lemma get_glove_embedding_found
    (table : gmap string ndarray) (word : string) (v : ndarray)
    (g : generator) :
  table !! word = Some v → get_glove_embedding table word g = OK (v, g).
Proof. intros H. unfold get_glove_embedding. by rewrite H. Qed.

Lemma get_glove_embedding_missing
    (table : gmap string ndarray) (word : string) (g : generator) :
  table !! word = None →
  ∃ x, get_glove_embedding table word g
       = OK (replicate 50 (IZR x), (λ n, g (S n)))
       ∧ (0 ≤ x ≤ 600)%Z.
Proof.
  intros H. unfold get_glove_embedding. rewrite H. unfold bind.
  destruct (randint_0_600 g) as (x & -> & Hx). by exists x.
Qed.

(** C10: for a word that is absent from the table, the vector returned by
    [get_glove_embedding] has exactly 50 components, all equal to one
    integer between 0 and 600. *)
Theorem C10_fallback_vector
    (table : gmap string ndarray) (word : string) (g : generator) :
  table !! word = None →
  ∃ (v : ndarray) (g' : generator) (x : Z),
    get_glove_embedding table word g = OK (v, g') ∧
    length v = 50%nat ∧ (0 ≤ x ≤ 600)%Z ∧ Forall (λ c, c = IZR x) v.
Proof.
  intros H.
  destruct (get_glove_embedding_missing table word g H) as (x & Hx & Hr).
  eexists _, _, x. split; first exact Hx.
  split; first by rewrite length_replicate.
  split; first done.
  by apply Forall_replicate.
Qed.

Lemma C10_fallback_vector_witness :
  ∃ (v : ndarray) (g' : generator) (x : Z),
    get_glove_embedding ∅ "lion" (λ _, 1207%Z) = OK (v, g') ∧
    length v = 50%nat ∧ (0 ≤ x ≤ 600)%Z ∧ Forall (λ c, c = IZR x) v.
Proof.
  apply (C10_fallback_vector ∅ "lion" (λ _, 1207%Z)).
  apply lookup_empty.
Defined.

(** ** The transition builder *)

Section Transitions.

Variable table : gmap string ndarray.

(** The table was loaded from [glove.6B.50d.txt]: 50 components a word. *)
Hypothesis table_dim : ∀ w v, table !! w = Some v → length v = 50%nat.

Lemma get_glove_embedding_total (word : string) (g : generator) :
  ∃ e g', get_glove_embedding table word g = OK (e, g') ∧ length e = 50%nat.
Proof.
  destruct (table !! word) as [v|] eqn:Hw.
  - exists v, g. split; first by apply get_glove_embedding_found.
    by apply (table_dim word).
  - destruct (get_glove_embedding_missing table word g Hw) as (x & Hx & _).
    eexists _, _. split; first exact Hx. by rewrite length_replicate.
Qed.

Lemma np_sub_same_length (a b : ndarray) :
  length a = length b → np_sub a b = OK (zip_with Rminus a b).
Proof. intros H. unfold np_sub. by destruct (decide (length a = length b)). Qed.

Lemma get_connections_loop_spec
    (pairs : list (string * string)) (acc : list ndarray) (g : generator) :
  ∃ cs g',
    get_connections_loop table pairs acc g = OK (acc ++ cs, g') ∧
    length cs = length pairs ∧
    ∀ i c, cs !! i = Some c →
      ∃ w1 w2, pairs !! i = Some (w1, w2) ∧ transition_of table w1 w2 c.
Proof.
  revert acc g. induction pairs as [|[w1 w2] pairs IH]; intros acc g.
  - exists [], g. rewrite app_nil_r. split; first done. split; first done.
    intros i c Hi. by rewrite lookup_nil in Hi.
  - cbn [get_connections_loop]. unfold bind at 1.
    destruct (get_glove_embedding_total w1 g) as (e1 & g2 & He1 & Hl1).
    rewrite He1. unfold bind at 1.
    destruct (get_glove_embedding_total w2 g2) as (e2 & g3 & He2 & Hl2).
    rewrite He2. unfold bind at 1.
    rewrite np_sub_same_length by congruence. unfold lift.
    destruct (IH (acc ++ [zip_with Rminus e1 e2]) g3)
      as (cs & g' & Hrun & Hlen & Hcs).
    exists (zip_with Rminus e1 e2 :: cs), g'.
    split.
    { eapply eq_trans; first exact Hrun.
      do 2 f_equal. symmetry. apply (app_assoc acc [_] cs). }
    split; first by (simpl; rewrite Hlen).
    intros [|i] c Hi.
    + injection Hi as <-. exists w1, w2. split; first done.
      by exists g, e1, g2, e2, g3.
    + by apply Hcs.
Qed.

(** C7: for every sequence of [n] words, [get_connections] returns
    exactly [max (n - 1) 0] transition vectors, and element [i] is the
    componentwise difference of the embedding of word [i] and the embedding
    of word [i + 1]: the difference of two lookups made one after the
    other, which is the difference of the table's vectors when both words
    are in the table. *)
Theorem C7_get_connections (paragraph : list string) (g : generator) :
  ∃ cs g',
    get_connections table paragraph g = OK (cs, g') ∧
    Z.of_nat (length cs) = Z.max (Z.of_nat (length paragraph) - 1) 0 ∧
    (∀ i c, cs !! i = Some c →
       ∃ w1 w2, paragraph !! i = Some w1 ∧ paragraph !! S i = Some w2 ∧
                transition_of table w1 w2 c) ∧
    (∀ i w1 w2 e1 e2,
       paragraph !! i = Some w1 → paragraph !! S i = Some w2 →
       table !! w1 = Some e1 → table !! w2 = Some e2 →
       cs !! i = Some (zip_with Rminus e1 e2)).
Proof.
  unfold get_connections.
  destruct (get_connections_loop_spec (zip paragraph (tail paragraph)) [] g)
    as (cs & g' & Hrun & Hlen & Hcs).
  exists cs, g'. split; first exact Hrun.
  assert (Hn : length cs = (length paragraph - 1)%nat).
  { rewrite Hlen, length_zip_with. destruct paragraph; cbn [length tail]; lia. }
  assert (Hpair : ∀ i c, cs !! i = Some c →
    ∃ w1 w2, paragraph !! i = Some w1 ∧ paragraph !! S i = Some w2 ∧
             transition_of table w1 w2 c).
  { intros i c Hi. destruct (Hcs i c Hi) as (w1 & w2 & Hz & Ht).
    apply lookup_zip_with_Some in Hz as (x & y & [= -> ->] & Hx & Hy).
    rewrite lookup_tail in Hy. by exists x, y. }
  split; first lia. split; first exact Hpair.
  intros i w1 w2 e1 e2 H1 H2 He1 He2.
  assert (Hi : (i < length cs)%nat).
  { apply lookup_lt_Some in H2. lia. }
  apply lookup_lt_is_Some_2 in Hi as [c Hc].
  destruct (Hpair i c Hc) as (x & y & Hx & Hy & Ht).
  assert (x = w1) as -> by congruence. assert (y = w2) as -> by congruence.
  destruct Ht as (g1 & a1 & g2 & a2 & g3 & Ha1 & Ha2 & ->).
  rewrite (get_glove_embedding_found _ _ _ _ He1) in Ha1.
  rewrite (get_glove_embedding_found _ _ _ _ He2) in Ha2.
  by injection Ha1 as <- _; injection Ha2 as <- _.
Qed.

End Transitions.

Lemma C7_get_connections_witness :
  ∃ cs g',
    get_connections (<["a" := replicate 50 1]> ∅) ["a"; "b"; "c"] (λ _, 7%Z)
      = OK (cs, g') ∧
    Z.of_nat (length cs) = 2%Z.
Proof.
  assert (Hdim : ∀ w v,
    (<["a" := replicate 50 1]> ∅ : gmap string ndarray) !! w = Some v →
    length v = 50%nat).
  { intros w v H. apply lookup_insert_Some in H as [[_ <-]|[_ H]].
    - by rewrite length_replicate.
    - by rewrite lookup_empty in H. }
  destruct (C7_get_connections _ Hdim ["a"; "b"; "c"] (λ _, 7%Z))
    as (cs & g' & Hrun & Hlen & _).
  exists cs, g'. split; [exact Hrun | exact Hlen].
Defined.

(** ** The density estimator *)

Lemma norm_np_sub (a b : ndarray) :
  norm (zip_with Rminus a b) = euclidean_distance a b.
Proof.
  unfold norm, euclidean_distance. f_equal. f_equal.
  revert b. induction a as [|x a IH]; intros [|y b]; [done..|].
  cbn [zip_with map]. by rewrite IH.
Qed.

Lemma distances_same_dimension (arrays : list ndarray) (target : ndarray) :
  Forall (λ arr, length arr = length target) arrays →
  res_map (λ arr, res_bind (np_sub arr target) (λ d, OK (norm d))) arrays
  = OK (map (λ arr, euclidean_distance arr target) arrays).
Proof.
  induction 1 as [|arr arrays Hl _ IH]; first done.
  cbn [res_map map]. rewrite IH.
  unfold np_sub. destruct (decide (length arr = length target)); last done.
  cbn [res_bind]. by rewrite norm_np_sub.
Qed.

Lemma insert_sorted_Permutation (x : nat * R) (l : list (nat * R)) :
  insert_sorted x l ≡ₚ x :: l.
Proof.
  induction l as [|y l IH]; first done.
  cbn [insert_sorted]. destruct (Rle_dec x.2 y.2); first done.
  rewrite IH. apply perm_swap.
Qed.

Lemma sort_pairs_Permutation (l : list (nat * R)) : sort_pairs l ≡ₚ l.
Proof.
  induction l as [|x l IH]; first done.
  cbn [sort_pairs foldr]. fold (sort_pairs l).
  by rewrite insert_sorted_Permutation, IH.
Qed.

Lemma insert_sorted_StronglySorted (x : nat * R) (l : list (nat * R)) :
  StronglySorted le_value l → StronglySorted le_value (insert_sorted x l).
Proof.
  induction 1 as [|y l Hs IH Hall]; first by repeat constructor.
  cbn [insert_sorted]. destruct (Rle_dec x.2 y.2) as [Hle|Hnle].
  - constructor; first by constructor.
    constructor; first done.
    eapply Forall_impl; first exact Hall.
    intros z Hz. unfold le_value in *. lra.
  - constructor; first done.
    rewrite insert_sorted_Permutation.
    constructor; last done. unfold le_value. lra.
Qed.

Lemma sort_pairs_StronglySorted (l : list (nat * R)) :
  StronglySorted le_value (sort_pairs l).
Proof.
  induction l as [|x l IH]; first constructor.
  cbn [sort_pairs foldr]. by apply insert_sorted_StronglySorted.
Qed.

Lemma map_snd_imap (f : nat → R → nat * R) (ds : list R) :
  (∀ i d, (f i d).2 = d) → map snd (imap f ds) = ds.
Proof.
  revert f. induction ds as [|d ds IH]; intros f Hf; first done.
  rewrite imap_cons. cbn [map]. rewrite Hf, IH; first done.
  intros i d'. apply Hf.
Qed.

Lemma sorted_values_Permutation (ds : list R) : sorted_values ds ≡ₚ ds.
Proof.
  unfold sorted_values.
  rewrite <-(map_snd_imap (λ i d, (i, d)) ds) at 2 by done.
  apply Permutation_map, sort_pairs_Permutation.
Qed.

Lemma sorted_values_StronglySorted (ds : list R) :
  StronglySorted Rle (sorted_values ds).
Proof.
  unfold sorted_values.
  induction (sort_pairs_StronglySorted (imap (λ i d, (i, d)) ds))
    as [|y l Hs IH Hall]; first constructor.
  cbn [map]. constructor; first done.
  clear -Hall. induction Hall as [|z l Hz _ IH]; by constructor.
Qed.

Lemma sorted_values_length (ds : list R) :
  length (sorted_values ds) = length ds.
Proof. apply Permutation_length, sorted_values_Permutation. Qed.

(** In a sorted list every element of a prefix is below every element of
    the rest. *)
Lemma StronglySorted_take_drop (l : list R) (n : nat) (a b : R) :
  StronglySorted Rle l → a ∈ take n l → b ∈ drop n l → a <= b.
Proof.
  intros Hs. revert n. induction Hs as [|x l Hs IH Hall]; intros n Ha Hb.
  - rewrite take_nil in Ha. by apply elem_of_nil in Ha.
  - destruct n as [|n]; first by apply elem_of_nil in Ha.
    cbn [take drop] in Ha, Hb.
    apply elem_of_cons in Ha as [->|Ha]; last by apply (IH n).
    rewrite Forall_forall in Hall. apply Hall.
    rewrite <-(take_drop n l). apply elem_of_app. by right.
Qed.

Lemma slice_to_map {A B} (f : A → B) (k : Z) (l : list A) :
  slice_to k (map f l) = map f (slice_to k l).
Proof.
  unfold slice_to. rewrite length_map.
  destruct (decide (0 ≤ k)%Z); apply firstn_map.
Qed.

Lemma res_map_index (ds : list R) (ps : list (nat * R)) :
  Forall (λ p, ds !! p.1 = Some p.2) ps →
  res_map (index ds) (map fst ps) = OK (map snd ps).
Proof.
  induction 1 as [|p ps Hp _ IH]; first done.
  cbn [map res_map]. rewrite IH. unfold index. by rewrite Hp.
Qed.

Lemma imap_pairs_valid (ds : list R) :
  Forall (λ p : nat * R, ds !! p.1 = Some p.2) (imap (λ i d, (i, d)) ds).
Proof.
  apply Forall_lookup. intros i p Hp.
  apply list_lookup_imap_Some in Hp as (d & Hd & ->). done.
Qed.

(** The values read through the first [k] indices of [argsort] are the
    slice of the sorted values, and reading them never raises. *)
Lemma selected_distances (ds : list R) (k : Z) :
  res_map (index ds) (slice_to k (argsort ds))
  = OK (slice_to k (sorted_values ds)).
Proof.
  unfold argsort, sorted_values. rewrite !slice_to_map.
  apply res_map_index.
  unfold slice_to. destruct (decide (0 ≤ k)%Z); apply Forall_take;
    rewrite sort_pairs_Permutation; apply imap_pairs_valid.
Qed.

Lemma find_k_closest_avg_slice
    (arrays : list ndarray) (target : ndarray) (k : Z) :
  Forall (λ arr, length arr = length target) arrays →
  find_k_closest_avg arrays target k
  = OK (np_average
          (slice_to k
             (sorted_values
                (map (λ arr, euclidean_distance arr target) arrays)))).
Proof.
  intros Hdim. unfold find_k_closest_avg.
  rewrite distances_same_dimension by done. cbn [res_bind].
  by rewrite selected_distances.
Qed.

Lemma np_average_Permutation (xs ys : list R) :
  xs ≡ₚ ys → np_average xs = np_average ys.
Proof.
  intros Hp. unfold np_average.
  destruct xs as [|x xs], ys as [|y ys]; first done.
  - by apply Permutation_nil_l in Hp.
  - by apply Permutation_nil_r in Hp.
  - by rewrite (Rsum_Permutation _ _ Hp), (Permutation_length Hp).
Qed.

Lemma slice_to_all {A} (k : Z) (l : list A) :
  (Z.of_nat (length l) ≤ k)%Z → slice_to k l = l.
Proof.
  intros Hk. unfold slice_to.
  destruct (decide (0 ≤ k)%Z); last lia.
  apply take_ge. lia.
Qed.

Lemma take_sorted_values_k_smallest (n : nat) (ds : list R) :
  (n ≤ length ds)%nat → k_smallest n ds (take n (sorted_values ds)).
Proof.
  intros Hn. split.
  - rewrite length_take, sorted_values_length. lia.
  - exists (drop n (sorted_values ds)). split.
    + rewrite take_drop. apply sorted_values_Permutation.
    + intros a b. apply StronglySorted_take_drop.
      apply sorted_values_StronglySorted.
Qed.

(** C1, as the claim states it, fails: against a corpus of size 2 with
    [k = 5] the call does not raise; it returns the mean of the two
    distances, here [(5 + 0) / 2]. *)
Lemma C1_k_exceeding_corpus_returns :
  find_k_closest_avg [[3; 4]; [0; 0]] [0; 0] 5 = OK (Fin (5 / 2)) ∧
  ¬ ∃ e, find_k_closest_avg [[3; 4]; [0; 0]] [0; 0] 5 = Err e.
Proof.
  assert (H : find_k_closest_avg [[3; 4]; [0; 0]] [0; 0] 5
              = OK (Fin (5 / 2))).
  { rewrite find_k_closest_avg_slice by (by repeat constructor).
    rewrite slice_to_all
      by (rewrite sorted_values_length; cbn [map length]; lia).
    rewrite (np_average_Permutation _ _ (sorted_values_Permutation _)).
    cbn [map np_average length Rsum foldr].
    assert (H5 : euclidean_distance [3; 4] [0; 0] = 5).
    { unfold euclidean_distance. cbn [zip_with Rsum foldr].
      replace ((3 - 0) * (3 - 0) + ((4 - 0) * (4 - 0) + 0)) with (5 * 5)
        by lra.
      apply sqrt_square. lra. }
    assert (H0 : euclidean_distance [0; 0] [0; 0] = 0).
    { unfold euclidean_distance. cbn [zip_with Rsum foldr].
      replace ((0 - 0) * (0 - 0) + ((0 - 0) * (0 - 0) + 0)) with 0 by lra.
      apply sqrt_0. }
    rewrite H5, H0. do 2 f_equal. simpl. lra. }
  split; first exact H.
  intros [e He]. rewrite H in He. discriminate.
Qed.

(** C1, amended: [find_k_closest_avg] has no [InvalidK] condition.  On a
    corpus whose vectors have the dimension of the target the call does not
    raise for any [k]: with [k] above the size of the corpus it returns the
    mean of all the distances ([nan] for an empty corpus), with [k = 0] it
    returns [nan], and with [k < 0] it returns the mean of the
    [len(arrays) - |k|] smallest distances ([nan] when none is left). *)
Theorem C1_find_k_closest_avg_invalid_k
    (arrays : list ndarray) (target : ndarray) (k : Z) :
  Forall (λ arr, length arr = length target) arrays →
  let ds := map (λ arr, euclidean_distance arr target) arrays in
  ((Z.of_nat (length arrays) < k)%Z →
     find_k_closest_avg arrays target k = OK (np_average ds)) ∧
  (k = 0%Z → find_k_closest_avg arrays target k = OK NaN) ∧
  ((k < 0)%Z →
     ∃ smallest,
       k_smallest (length arrays - Z.to_nat (- k)) ds smallest ∧
       find_k_closest_avg arrays target k = OK (np_average smallest)).
Proof.
  intros Hdim ds. rewrite find_k_closest_avg_slice by done. fold ds.
  assert (Hlen : length ds = length arrays) by apply length_map.
  split; [|split].
  - intros Hk. rewrite slice_to_all by (rewrite sorted_values_length; lia).
    f_equal. apply np_average_Permutation, sorted_values_Permutation.
  - intros ->. unfold slice_to. cbn [decide]. by rewrite take_0.
  - intros Hk. unfold slice_to.
    destruct (decide (0 ≤ k)%Z); first lia.
    rewrite sorted_values_length, Hlen.
    eexists. split; last done.
    apply take_sorted_values_k_smallest. lia.
Qed.

Lemma C1_find_k_closest_avg_invalid_k_witness :
  find_k_closest_avg [[1; 2]; [3; 4]] [0; 0] 5
  = OK (np_average [euclidean_distance [1; 2] [0; 0];
                    euclidean_distance [3; 4] [0; 0]]).
Proof.
  apply (C1_find_k_closest_avg_invalid_k [[1; 2]; [3; 4]] [0; 0] 5).
  - by repeat constructor.
  - simpl. lia.
Defined.

(** C6: for a target, a non-empty corpus of vectors of the target's
    dimension and [1 <= k <= len(arrays)], [find_k_closest_avg] returns a
    scalar, the arithmetic mean of the [k] smallest Euclidean distances from
    the target to the corpus; with [k = 1] it is the minimum distance. *)
Theorem C6_find_k_closest_avg_mean
    (arrays : list ndarray) (target : ndarray) (k : Z) :
  Forall (λ arr, length arr = length target) arrays →
  arrays ≠ [] → (1 ≤ k ≤ Z.of_nat (length arrays))%Z →
  let ds := map (λ arr, euclidean_distance arr target) arrays in
  (∃ smallest,
     k_smallest (Z.to_nat k) ds smallest ∧
     find_k_closest_avg arrays target k
     = OK (Fin (Rsum smallest / IZR k))) ∧
  (k = 1%Z →
     ∃ m, find_k_closest_avg arrays target k = OK (Fin m) ∧
          m ∈ ds ∧ ∀ d, d ∈ ds → m <= d).
Proof.
  intros Hdim Hne Hk ds. rewrite find_k_closest_avg_slice by done. fold ds.
  assert (Hlen : length ds = length arrays) by apply length_map.
  unfold slice_to. destruct (decide (0 ≤ k)%Z); last lia.
  pose proof (take_sorted_values_k_smallest (Z.to_nat k) ds) as Hsm.
  destruct Hsm as [Hl (rest & Hperm & Hle)]; first lia.
  set (smallest := take (Z.to_nat k) (sorted_values ds)) in *.
  assert (Havg : np_average smallest = Fin (Rsum smallest / IZR k)).
  { unfold np_average. destruct smallest as [|x xs] eqn:E.
    - simpl in Hl. lia.
    - rewrite Hl, INR_IZR_INZ, Z2Nat.id by lia. done. }
  split.
  - exists smallest. split; last by rewrite Havg.
    split; first done. by exists rest.
  - intros ->. destruct smallest as [|m [|? ?]] eqn:E; [done| |done].
    exists m. split.
    + rewrite Havg. do 2 f_equal. cbn [Rsum foldr]. lra.
    + split.
      * rewrite <-Hperm. left.
      * intros d Hd. rewrite <-Hperm in Hd.
        apply elem_of_cons in Hd as [->|Hd]; first lra.
        apply Hle; [left | done].
Qed.

Lemma C6_find_k_closest_avg_mean_witness :
  ∃ m, find_k_closest_avg [[1; 2]; [3; 4]] [0; 0] 1 = OK (Fin m) ∧
       ∀ d, d ∈ [euclidean_distance [1; 2] [0; 0];
                  euclidean_distance [3; 4] [0; 0]] → m <= d.
Proof.
  destruct (C6_find_k_closest_avg_mean [[1; 2]; [3; 4]] [0; 0] 1)
    as [_ Hmin].
  - by repeat constructor.
  - done.
  - simpl. lia.
  - destruct (Hmin eq_refl) as (m & Hm & _ & Hle). by exists m.
Defined.

(** ** The pipeline *)

Lemma process_text_loop_filter
    (table : gmap string ndarray) (paragraphs : list string)
    (acc : list ndarray) (g : generator) :
  process_text_loop table paragraphs acc g
  = process_text_loop table (filter qualifies paragraphs) acc g.
Proof.
  revert acc g. induction paragraphs as [|p ps IH]; intros acc g; first done.
  cbn [process_text_loop].
  destruct (decide (String.length p < 100)%nat) as [Hs|Hl].
  - rewrite filter_cons_False by (unfold qualifies; lia). apply IH.
  - rewrite filter_cons_True by (unfold qualifies; lia).
    cbn [process_text_loop].
    destruct (decide (String.length p < 100)%nat); first done.
    unfold bind. destruct (get_connections table (chars p) g) as [[cs g']|];
      [apply IH | done].
Qed.

Lemma scoring_loop_filter
    (table : gmap string ndarray) (connections : list ndarray)
    (docs : list (nat * string)) (printed : list (nat * npfloat))
    (g : generator) :
  scoring_loop table connections docs printed g
  = scoring_loop table connections (qualifying docs) printed g.
Proof.
  unfold qualifying.
  revert printed g. induction docs as [|[idx p] ds IH]; intros printed g;
    first done.
  cbn [scoring_loop].
  destruct (decide (String.length p < 100)%nat) as [Hs|Hl].
  - rewrite filter_cons_False by (unfold qualifies; simpl; lia). apply IH.
  - rewrite filter_cons_True by (unfold qualifies; simpl; lia).
    cbn [scoring_loop].
    destruct (decide (String.length p < 100)%nat); first done.
    unfold bind.
    destruct (tokenized_probabilities table (chars p) connections g)
      as [[pairs g']|]; [apply IH | done].
Qed.

Section PipelineTotal.

Variable table : gmap string ndarray.

(** The table was loaded from [glove.6B.50d.txt]: 50 components a word. *)
Hypothesis table_dim : ∀ w v, table !! w = Some v → length v = 50%nat.

Lemma get_glove_embedding_dim (w : string) (g g' : generator) (e : ndarray) :
  get_glove_embedding table w g = OK (e, g') → dim50 e.
Proof.
  intros H.
  destruct (get_glove_embedding_total table table_dim w g)
    as (e0 & g0 & He0 & Hl).
  rewrite He0 in H. by injection H as <- _.
Qed.

Lemma get_connections_total (paragraph : list string) (g : generator) :
  ∃ cs g', get_connections table paragraph g = OK (cs, g') ∧ Forall dim50 cs.
Proof.
  unfold get_connections.
  destruct (get_connections_loop_spec table table_dim
              (zip paragraph (tail paragraph)) [] g)
    as (cs & g' & Hrun & _ & Hcs).
  exists cs, g'. split; first exact Hrun.
  apply Forall_lookup. intros i c Hi.
  destruct (Hcs i c Hi) as (w1 & w2 & _ & Ht).
  destruct Ht as (g1 & e1 & g2 & e2 & g3 & H1 & H2 & ->).
  apply get_glove_embedding_dim in H1, H2. unfold dim50 in *.
  rewrite length_zip_with. lia.
Qed.

Lemma process_text_loop_total
    (paragraphs : list string) (acc : list ndarray) (g : generator) :
  Forall dim50 acc →
  ∃ cs g', process_text_loop table paragraphs acc g = OK (cs, g')
           ∧ Forall dim50 cs.
Proof.
  revert acc g. induction paragraphs as [|p ps IH]; intros acc g Hacc.
  - by exists acc, g.
  - cbn [process_text_loop].
    destruct (decide (String.length p < 100)%nat); first by apply IH.
    unfold bind.
    destruct (get_connections_total (chars p) g) as (cs & g' & -> & Hcs).
    apply IH. apply Forall_app. by split.
Qed.

Lemma density_pairs_total (connections pcs : list ndarray) :
  Forall dim50 connections → Forall dim50 pcs →
  ∃ pairs, density_pairs connections pcs = OK pairs.
Proof.
  intros Hc. induction 1 as [|d pcs Hd _ [pairs IH]]; first by exists [].
  cbn [density_pairs].
  rewrite find_k_closest_avg_slice.
  - cbn [res_bind]. rewrite IH. cbn [res_bind]. by eexists.
  - eapply Forall_impl; first exact Hc.
    intros arr Harr. unfold dim50 in *. congruence.
Qed.

Lemma tokenized_probabilities_total
    (paragraph : list string) (connections : list ndarray) (g : generator) :
  Forall dim50 connections →
  ∃ pairs g',
    tokenized_probabilities table paragraph connections g = OK (pairs, g').
Proof.
  intros Hc. unfold tokenized_probabilities, bind.
  destruct (get_connections_total paragraph g) as (cs & g' & -> & Hcs).
  destruct (density_pairs_total connections cs Hc Hcs) as [pairs Hp].
  unfold lift. rewrite Hp. by eexists _, _.
Qed.

(** The scoring loop prints one line for each paragraph it does not skip,
    in order, with the index [enumerate] gave the paragraph. *)
Lemma scoring_loop_total
    (connections : list ndarray) (docs : list (nat * string))
    (printed : list (nat * npfloat)) (g : generator) :
  Forall dim50 connections →
  ∃ new g',
    scoring_loop table connections docs printed g = OK (printed ++ new, g')
    ∧ map fst new = map fst (qualifying docs).
Proof.
  intros Hc. unfold qualifying. revert printed g.
  induction docs as [|[idx p] ds IH]; intros printed g.
  - exists [], g. by rewrite app_nil_r.
  - cbn [scoring_loop].
    destruct (decide (String.length p < 100)%nat) as [Hs|Hl].
    + rewrite filter_cons_False by (unfold qualifies; simpl; lia). apply IH.
    + rewrite filter_cons_True by (unfold qualifies; simpl; lia).
      unfold bind.
      destruct (tokenized_probabilities_total (chars p) connections g Hc)
        as (pairs & g' & ->).
      set (info := information_of_statement pairs _).
      destruct (IH (printed ++ [(idx, info)]) g') as (new & g'' & Hrun & Hi).
      exists ((idx, info) :: new), g''. split.
      * eapply eq_trans; first exact Hrun.
        do 2 f_equal. symmetry. apply (app_assoc printed [_] new).
      * cbn [map]. by rewrite Hi.
Qed.

Lemma main_total (document : string) (g : generator) :
  ∃ out g',
    main table document g = OK (out, g') ∧
    map fst out = map fst (qualifying (enumerate (split newline document))).
Proof.
  unfold main, bind, process_text.
  destruct (process_text_loop_total (split newline document) [] g)
    as (cs & g' & -> & Hcs); first done.
  destruct (scoring_loop_total cs (enumerate (split newline document)) [] g'
              Hcs) as (new & g'' & Hrun & Hi).
  by exists new, g''.
Qed.

End PipelineTotal.

Lemma process_text_loop_all_short
    (table : gmap string ndarray) (paragraphs : list string)
    (acc : list ndarray) (g : generator) :
  Forall (λ p, String.length p < 100)%nat paragraphs →
  process_text_loop table paragraphs acc g = OK (acc, g).
Proof.
  induction 1 as [|p ps Hp _ IH]; first done.
  cbn [process_text_loop].
  by destruct (decide (String.length p < 100)%nat).
Qed.

Lemma scoring_loop_all_short
    (table : gmap string ndarray) (connections : list ndarray)
    (docs : list (nat * string)) (printed : list (nat * npfloat))
    (g : generator) :
  Forall (λ d, String.length d.2 < 100)%nat docs →
  scoring_loop table connections docs printed g = OK (printed, g).
Proof.
  induction 1 as [|[idx p] ds Hp _ IH]; first done.
  cbn [scoring_loop]. simpl in Hp.
  by destruct (decide (String.length p < 100)%nat).
Qed.

Lemma enumerate_lookup {A} (l : list A) (i : nat) (d : nat * A) :
  enumerate l !! i = Some d → d.1 = i ∧ l !! i = Some d.2.
Proof.
  unfold enumerate. intros H.
  by apply list_lookup_imap_Some in H as (x & Hx & ->).
Qed.

Lemma qualifying_index (paragraphs : list string) (idx : nat) :
  idx ∈ map fst (qualifying (enumerate paragraphs)) →
  ∃ p, paragraphs !! idx = Some p ∧ qualifies p.
Proof.
  intros Hin. apply list_elem_of_In, in_map_iff in Hin as (d & <- & Hd).
  apply list_elem_of_In, list_elem_of_filter in Hd as [Hq Hd].
  apply list_elem_of_lookup in Hd as [i Hi].
  apply enumerate_lookup in Hi as [-> Hp]. by exists d.2.
Qed.

(** C8: a paragraph of fewer than 100 characters adds no transition
    vector to the corpus ([process_text] computes what it computes on the
    qualifying paragraphs alone) and gets no line of output (the indices
    printed are those of the qualifying paragraphs, in order); when no
    paragraph qualifies the run ends with an empty output and no error. *)
Theorem C8_short_paragraphs_skipped
    (table : gmap string ndarray) (document : string) (g : generator) :
  (∀ w v, table !! w = Some v → length v = 50%nat) →
  let paragraphs := split newline document in
  process_text table document g
    = process_text_loop table (filter qualifies paragraphs) [] g ∧
  (∃ out g',
     main table document g = OK (out, g') ∧
     map fst out = map fst (qualifying (enumerate paragraphs)) ∧
     ∀ idx p, paragraphs !! idx = Some p →
              (String.length p < 100)%nat → idx ∉ map fst out) ∧
  (Forall (λ p, String.length p < 100)%nat paragraphs →
     main table document g = OK ([], g)).
Proof.
  intros Hdim paragraphs. split; [|split].
  - apply process_text_loop_filter.
  - destruct (main_total table Hdim document g) as (out & g' & Hrun & Hidx).
    exists out, g'. split; first done. split; first done.
    intros idx p Hp Hshort Hin. fold paragraphs in Hidx. rewrite Hidx in Hin.
    apply qualifying_index in Hin as (p' & Hp' & Hq).
    unfold qualifies in Hq. assert (p' = p) as -> by congruence. lia.
  - intros Hshort. unfold main, bind, process_text. fold paragraphs.
    rewrite process_text_loop_all_short by done.
    apply scoring_loop_all_short.
    apply Forall_lookup. intros i d Hd.
    apply enumerate_lookup in Hd as [_ Hd].
    by apply (Forall_lookup_1 _ _ _ _ Hshort Hd).
Qed.

Lemma C8_short_paragraphs_skipped_witness :
  main ∅ (String.append "A lion." (String newline "Panthera leo."))
       (λ _, 3%Z)
  = OK ([], (λ _, 3%Z)).
Proof.
  apply (C8_short_paragraphs_skipped ∅).
  - intros w v H. by rewrite lookup_empty in H.
  - vm_compute. repeat constructor.
Defined.

(** ** Runs with the same fallback values *)

Lemma respects_ret {A} (a : A) : respects (ret a).
Proof. by intros g1 g2 Hg. Qed.

Lemma respects_lift {A} (r : res A) : respects (lift r).
Proof. intros g1 g2 Hg. unfold lift, same_outcome. by destruct r. Qed.

Lemma respects_bind {A B} (m : M A) (k : A → M B) :
  respects m → (∀ a, respects (k a)) → respects (bind m k).
Proof.
  intros Hm Hk g1 g2 Hg. unfold bind.
  specialize (Hm g1 g2 Hg). unfold same_outcome in Hm.
  destruct (m g1) as [[a1 g1']|e1], (m g2) as [[a2 g2']|e2]; try done.
  destruct Hm as [-> Hg']. by apply Hk.
Qed.

Lemma respects_randint_0_600 : respects (randint 0 600).
Proof.
  intros g1 g2 Hg. unfold randint, next_draw.
  destruct (decide (0 ≤ 600)%Z); last done.
  split.
  - change (600 - 0 + 1)%Z with 601%Z. by rewrite (Hg 0%nat).
  - intros n. apply Hg.
Qed.

Lemma respects_get_glove_embedding
    (table : gmap string ndarray) (word : string) :
  respects (get_glove_embedding table word).
Proof.
  unfold get_glove_embedding. destruct (table !! word).
  - apply respects_ret.
  - apply respects_bind; first apply respects_randint_0_600.
    intros x. apply respects_ret.
Qed.

Lemma respects_get_connections_loop
    (table : gmap string ndarray) (pairs : list (string * string))
    (acc : list ndarray) :
  respects (get_connections_loop table pairs acc).
Proof.
  revert acc. induction pairs as [|[w1 w2] pairs IH]; intros acc.
  - apply respects_ret.
  - cbn [get_connections_loop].
    apply respects_bind; first apply respects_get_glove_embedding.
    intros e1.
    apply respects_bind; first apply respects_get_glove_embedding.
    intros e2.
    apply respects_bind; first apply respects_lift.
    intros c. apply IH.
Qed.

Lemma respects_process_text_loop
    (table : gmap string ndarray) (paragraphs : list string)
    (acc : list ndarray) :
  respects (process_text_loop table paragraphs acc).
Proof.
  revert acc. induction paragraphs as [|p ps IH]; intros acc.
  - apply respects_ret.
  - cbn [process_text_loop].
    destruct (decide (String.length p < 100)%nat); first apply IH.
    apply respects_bind; first apply respects_get_connections_loop.
    intros cs. apply IH.
Qed.

Lemma respects_scoring_loop
    (table : gmap string ndarray) (connections : list ndarray)
    (docs : list (nat * string)) (printed : list (nat * npfloat)) :
  respects (scoring_loop table connections docs printed).
Proof.
  revert printed. induction docs as [|[idx p] ds IH]; intros printed.
  - apply respects_ret.
  - cbn [scoring_loop].
    destruct (decide (String.length p < 100)%nat); first apply IH.
    apply respects_bind.
    + unfold tokenized_probabilities.
      apply respects_bind; first apply respects_get_connections_loop.
      intros cs. apply respects_lift.
    + intros pairs. apply IH.
Qed.

Lemma respects_main (table : gmap string ndarray) (document : string) :
  respects (main table document).
Proof.
  unfold main. apply respects_bind.
  - apply respects_process_text_loop.
  - intros cs. apply respects_scoring_loop.
Qed.

(** C9: two runs of the whole module on the same table and the same
    document, with generators that give the same fallback values, end the
    same way, and under a table of 50-component vectors both return the
    same sequence of pairs of a paragraph index and a score. *)
Theorem C9_runs_agree
    (table : gmap string ndarray) (document : string) (g1 g2 : generator) :
  same_draws g1 g2 →
  returned (main table document g1) = returned (main table document g2) ∧
  ((∀ w v, table !! w = Some v → length v = 50%nat) →
   ∃ out, returned (main table document g1) = OK out ∧
          returned (main table document g2) = OK out).
Proof.
  intros Hg.
  assert (Heq : returned (main table document g1)
                = returned (main table document g2)).
  { pose proof (respects_main table document g1 g2 Hg) as H.
    unfold same_outcome in H.
    destruct (main table document g1) as [[o1 ?]|e1],
             (main table document g2) as [[o2 ?]|e2]; try done.
    - by destruct H as [-> _].
    - by subst. }
  split; first exact Heq.
  intros Hdim.
  destruct (main_total table Hdim document g1) as (out & g' & Hrun & _).
  exists out. rewrite <-Heq, Hrun. done.
Qed.

Lemma C9_runs_agree_witness :
  returned (main ∅ lion_paragraph (λ _, 5%Z))
  = returned (main ∅ lion_paragraph (λ _, 606%Z)).
Proof.
  apply (C9_runs_agree ∅ lion_paragraph (λ _, 5%Z) (λ _, 606%Z)).
  intros n. reflexivity.
Defined.

(** * Further properties of the code *)

(** ** Norms and distances *)

(** X6: [euclidean_norm] is never negative, and the norm of an array of
    zeros, of any length, is [0]. *)
Theorem euclidean_norm_zeros (array : ndarray) :
  0 <= euclidean_norm array ∧
  (Forall (λ c, c = 0) array → euclidean_norm array = 0).
Proof.
  unfold euclidean_norm, norm. split; first apply sqrt_pos.
  intros Hz.
  assert (Rsum (map (λ c, c * c) array) = 0) as ->; last apply sqrt_0.
  induction Hz as [|c x -> _ IH]; cbn [map Rsum foldr]; first done.
  fold (Rsum (map (λ c, c * c) x)). rewrite IH. lra.
Qed.

Lemma euclidean_norm_zeros_witness : euclidean_norm [0; 0; 0] = 0.
Proof. apply euclidean_norm_zeros. by repeat constructor. Defined.

Lemma euclidean_distance_nonneg (a b : ndarray) : 0 <= euclidean_distance a b.
Proof. apply sqrt_pos. Qed.

Lemma euclidean_distance_self (a : ndarray) : euclidean_distance a a = 0.
Proof.
  unfold euclidean_distance.
  assert (Rsum (zip_with (λ x y, (x - y) * (x - y)) a a) = 0) as ->;
    last apply sqrt_0.
  induction a as [|x a IH]; cbn [zip_with Rsum foldr]; first done.
  fold (Rsum (zip_with (λ x y, (x - y) * (x - y)) a a)). rewrite IH. lra.
Qed.

(** ** More on the density estimator *)

(** The mean of a non-empty list of numbers that are not negative. *)
Lemma np_average_nonneg (xs : list R) :
  xs ≠ [] → Forall (λ x, 0 <= x) xs →
  ∃ m, np_average xs = Fin m ∧ 0 <= m.
Proof.
  intros Hne Hnn. pose proof (INR_length_pos xs Hne) as Hn.
  exists (Rsum xs / INR (length xs)). split; first by destruct xs.
  apply Rmult_le_pos; first by apply Rsum_nonneg.
  apply Rlt_le. by apply Rinv_0_lt_compat.
Qed.

Lemma slice_to_positive_nonempty {A} (k : Z) (l : list A) :
  (1 ≤ k)%Z → l ≠ [] → slice_to k l ≠ [].
Proof.
  intros Hk Hne. unfold slice_to. destruct (decide (0 ≤ k)%Z); last lia.
  destruct l as [|x l]; first done.
  destruct (Z.to_nat k) as [|n] eqn:E; [lia | done].
Qed.

Lemma elem_of_slice_to {A} (k : Z) (l : list A) (x : A) :
  x ∈ slice_to k l → x ∈ l.
Proof.
  unfold slice_to. destruct (decide (0 ≤ k)%Z); intros H;
    apply elem_of_take in H as (i & Hi & _); by eapply list_elem_of_lookup_2.
Qed.

Lemma elem_of_map_1 {A B} (f : A → B) (l : list A) (y : B) :
  y ∈ map f l → ∃ x, y = f x ∧ x ∈ l.
Proof.
  intros H. apply list_elem_of_In, in_map_iff in H as (x & <- & Hx).
  exists x. split; first done. by apply list_elem_of_In.
Qed.

Lemma elem_of_map_2 {A B} (f : A → B) (l : list A) (x : A) :
  x ∈ l → f x ∈ map f l.
Proof. intros H. apply list_elem_of_In, in_map. by apply list_elem_of_In. Qed.

Lemma sorted_values_nonempty (ds : list R) : ds ≠ [] → sorted_values ds ≠ [].
Proof.
  intros Hne Hs. pose proof (sorted_values_length ds) as Hl.
  rewrite Hs in Hl. by destruct ds.
Qed.

Lemma density_nonneg
    (arrays : list ndarray) (target : ndarray) (k : Z) :
  Forall (λ arr, length arr = length target) arrays →
  arrays ≠ [] → (1 ≤ k)%Z →
  ∃ m, find_k_closest_avg arrays target k = OK (Fin m) ∧ 0 <= m.
Proof.
  intros Hdim Hne Hk. rewrite find_k_closest_avg_slice by done.
  set (ds := map (λ arr, euclidean_distance arr target) arrays).
  assert (Hsl : slice_to k (sorted_values ds) ≠ []).
  { apply slice_to_positive_nonempty; first done.
    apply sorted_values_nonempty. by destruct arrays. }
  destruct (np_average_nonneg _ Hsl) as (m & -> & Hm); last by exists m.
  apply Forall_forall. intros x Hx. apply elem_of_slice_to in Hx.
  rewrite sorted_values_Permutation in Hx.
  apply elem_of_map_1 in Hx as (arr & -> & _).
  apply euclidean_distance_nonneg.
Qed.

(** X1: For a non-empty corpus of vectors of the target's dimension and any
    [k >= 1], also one above the size of the corpus, [find_k_closest_avg]
    returns without an error a number that is not [nan] and not
    negative. *)
Theorem find_k_closest_avg_nonneg
    (arrays : list ndarray) (target : ndarray) (k : Z) :
  Forall (λ arr, length arr = length target) arrays →
  arrays ≠ [] → (1 ≤ k)%Z →
  ∃ x, find_k_closest_avg arrays target k = OK x ∧ nonneg_float x.
Proof.
  intros Hdim Hne Hk.
  destruct (density_nonneg arrays target k Hdim Hne Hk) as (m & -> & Hm).
  by exists (Fin m).
Qed.

Lemma find_k_closest_avg_nonneg_witness :
  ∃ x, find_k_closest_avg [[1; 2]; [3; 4]] [0; 0] 7 = OK x ∧ nonneg_float x.
Proof.
  apply (find_k_closest_avg_nonneg [[1; 2]; [3; 4]] [0; 0] 7).
  - by repeat constructor.
  - done.
  - lia.
Defined.

Lemma take_1_sorted_values (ds : list R) :
  ds ≠ [] →
  ∃ m, take 1 (sorted_values ds) = [m] ∧ m ∈ ds ∧ ∀ d, d ∈ ds → m <= d.
Proof.
  intros Hne.
  destruct (take_sorted_values_k_smallest 1 ds)
    as [Hl (rest & Hperm & Hle)].
  { destruct ds; [done | simpl; lia]. }
  destruct (take 1 (sorted_values ds)) as [|m [|? ?]]; [done| |done].
  exists m. split; first done. split.
  - rewrite <-Hperm. left.
  - intros d Hd. rewrite <-Hperm in Hd.
    apply elem_of_cons in Hd as [->|Hd]; first lra.
    apply Hle; [left | done].
Qed.

(** X2: When the target is itself one of the vectors of the corpus, the
    density for [k = 1] is [0]: the nearest vector is the target. *)
Theorem find_k_closest_avg_member
    (arrays : list ndarray) (target : ndarray) :
  Forall (λ arr, length arr = length target) arrays →
  target ∈ arrays →
  find_k_closest_avg arrays target 1 = OK (Fin 0).
Proof.
  intros Hdim Hin. rewrite find_k_closest_avg_slice by done.
  set (ds := map (λ arr, euclidean_distance arr target) arrays).
  assert (H0 : 0 ∈ ds).
  { rewrite <-(euclidean_distance_self target).
    by apply (elem_of_map_2 (λ arr, euclidean_distance arr target)). }
  assert (Hne : ds ≠ []) by (intros E; rewrite E in H0; by apply elem_of_nil in H0).
  destruct (take_1_sorted_values ds Hne) as (m & Hm & Hmin & Hle).
  unfold slice_to. destruct (decide (0 ≤ 1)%Z); last lia.
  change (Z.to_nat 1) with 1%nat.
  rewrite Hm. cbn [np_average Rsum foldr length].
  apply elem_of_map_1 in Hmin as (arr & -> & _).
  pose proof (euclidean_distance_nonneg arr target).
  pose proof (Hle 0 H0).
  do 2 f_equal. simpl. lra.
Qed.

Lemma find_k_closest_avg_member_witness :
  find_k_closest_avg [[3; 4]; [1; 2]] [1; 2] 1 = OK (Fin 0).
Proof.
  apply find_k_closest_avg_member.
  - by repeat constructor.
  - right. left.
Defined.

(** Two sorted lists with the same elements are the same list. *)
Lemma StronglySorted_Permutation_eq (l1 l2 : list R) :
  StronglySorted Rle l1 → StronglySorted Rle l2 → l1 ≡ₚ l2 → l1 = l2.
Proof.
  intros H1. revert l2. induction H1 as [|x1 l1 Hs1 IH Hall1];
    intros l2 H2 Hp.
  - by apply Permutation_nil_l in Hp.
  - destruct H2 as [|x2 l2 Hs2 Hall2].
    + by apply Permutation_nil_r in Hp.
    + rewrite Forall_forall in Hall1, Hall2.
      assert (Hx : x1 = x2).
      { assert (H12 : x1 <= x2).
        { assert (Hin : x2 ∈ x1 :: l1) by (rewrite Hp; left).
          apply elem_of_cons in Hin as [->|Hin]; [lra | by apply Hall1]. }
        assert (H21 : x2 <= x1).
        { assert (Hin : x1 ∈ x2 :: l2) by (rewrite <-Hp; left).
          apply elem_of_cons in Hin as [->|Hin]; [lra | by apply Hall2]. }
        lra. }
      subst x2. f_equal. apply IH; first done.
      by apply Permutation.Permutation_cons_inv in Hp.
Qed.

Lemma sorted_values_Permutation_eq (ds ds' : list R) :
  ds ≡ₚ ds' → sorted_values ds = sorted_values ds'.
Proof.
  intros Hp. apply StronglySorted_Permutation_eq;
    [apply sorted_values_StronglySorted..|].
  by rewrite !sorted_values_Permutation.
Qed.

(** The distance from one vector of the corpus to the target, as the
    list comprehension of [find_k_closest_avg] computes it. *)
Lemma distance_error (arr target : ndarray) (e : pyerr) :
  res_bind (np_sub arr target) (λ d, OK (norm d)) = Err e → e = ValueError.
Proof.
  unfold np_sub.
  destruct (decide (length arr = length target)); first done.
  destruct (decide (length arr = 1%nat)); first done.
  destruct (decide (length target = 1%nat)); first done.
  cbn [res_bind]. congruence.
Qed.

(** Mapping over a rearranged list a function that raises nothing but
    [ValueError]: the same error, or the same results rearranged. *)
Lemma res_map_Permutation {A B} (f : A → res B) (l l' : list A) :
  (∀ x e, f x = Err e → e = ValueError) → l ≡ₚ l' →
  match res_map f l, res_map f l' with
  | OK ys, OK ys' => ys ≡ₚ ys'
  | Err e, Err e' => e = e'
  | _, _ => False
  end.
Proof.
  intros Hf Hp. induction Hp as [|x l l' Hp IH|x y l|l l' l'' Hp1 IH1 Hp2 IH2].
  - cbn [res_map]. reflexivity.
  - cbn [res_map]. destruct (f x) as [b|e] eqn:Ex; cbn [res_bind]; last done.
    destruct (res_map f l), (res_map f l'); cbn [res_bind]; try done.
    by constructor.
  - cbn [res_map].
    destruct (f x) as [b|e] eqn:Ex, (f y) as [c|e'] eqn:Ey; cbn [res_bind].
    + destruct (res_map f l); cbn [res_bind]; [apply perm_swap | done].
    + done.
    + done.
    + apply Hf in Ex, Ey. congruence.
  - destruct (res_map f l), (res_map f l'), (res_map f l''); try done.
    + by etransitivity.
    + congruence.
Qed.

(** X3: The order of the vectors in the corpus does not matter: on a
    rearranged corpus [find_k_closest_avg] returns the same value, or
    raises the same error, for every target and every [k]. *)
Theorem find_k_closest_avg_Permutation
    (arrays arrays' : list ndarray) (target : ndarray) (k : Z) :
  arrays ≡ₚ arrays' →
  find_k_closest_avg arrays target k = find_k_closest_avg arrays' target k.
Proof.
  intros Hp. unfold find_k_closest_avg.
  pose proof (res_map_Permutation
    (λ arr, res_bind (np_sub arr target) (λ d, OK (norm d)))
    arrays arrays' (λ arr e, distance_error arr target e) Hp) as H.
  destruct (res_map _ arrays) as [ds|e], (res_map _ arrays') as [ds'|e'];
    try done; cbn [res_bind]; last by subst.
  by rewrite !selected_distances, (sorted_values_Permutation_eq ds ds').
Qed.

Lemma find_k_closest_avg_Permutation_witness :
  find_k_closest_avg [[1; 2]; [3; 4]; [5; 6]] [0; 0] 2
  = find_k_closest_avg [[5; 6]; [1; 2]; [3; 4]] [0; 0] 2.
Proof.
  apply find_k_closest_avg_Permutation.
  change ([[1; 2]; [3; 4]] ++ [[5; 6]] ≡ₚ [[5; 6]] ++ [[1; 2]; [3; 4]]).
  apply Permutation_app_comm.
Defined.

Lemma res_map_error {A B} (f : A → res B) (l : list A) (x : A) :
  (∀ y e, f y = Err e → e = ValueError) →
  x ∈ l → f x = Err ValueError → res_map f l = Err ValueError.
Proof.
  intros Hf Hx Hfx. induction l as [|y l IH]; first by apply elem_of_nil in Hx.
  cbn [res_map]. destruct (f y) as [b|e] eqn:Ey; cbn [res_bind].
  - apply elem_of_cons in Hx as [->|Hx]; first congruence.
    by rewrite IH.
  - f_equal. by eapply Hf.
Qed.

(** X4: A corpus with a vector that cannot be broadcast against the target
    (another length, neither of them 1) makes [find_k_closest_avg] raise
    [ValueError], wherever the vector is and whatever [k] is. *)
Theorem find_k_closest_avg_dimension_mismatch
    (arrays : list ndarray) (target arr : ndarray) (k : Z) :
  arr ∈ arrays →
  length arr ≠ length target → length arr ≠ 1%nat →
  length target ≠ 1%nat →
  find_k_closest_avg arrays target k = Err ValueError.
Proof.
  intros Hin H1 H2 H3. unfold find_k_closest_avg.
  rewrite (res_map_error _ arrays arr); first done.
  - intros y e. apply distance_error.
  - done.
  - unfold np_sub.
    destruct (decide (length arr = length target)); first done.
    destruct (decide (length arr = 1%nat)); first done.
    by destruct (decide (length target = 1%nat)).
Qed.

Lemma find_k_closest_avg_dimension_mismatch_witness :
  find_k_closest_avg [[1; 2]; [3; 4; 5]] [0; 0] 1 = Err ValueError.
Proof.
  apply (find_k_closest_avg_dimension_mismatch _ _ [3; 4; 5]).
  - right. left.
  - simpl. lia.
  - simpl. lia.
  - simpl. lia.
Defined.

(** ** More on the embedding lookup and the transitions *)

Lemma randint_0_600_value (g : generator) :
  randint 0 600 g = OK ((g 0%nat mod 601)%Z, advance 1 g).
Proof.
  unfold randint, next_draw.
  destruct (decide (0 ≤ 600)%Z); [reflexivity | lia].
Qed.

Lemma get_glove_embedding_missing_value
    (table : gmap string ndarray) (word : string) (g : generator) :
  table !! word = None →
  get_glove_embedding table word g
  = OK (replicate 50 (IZR (g 0%nat mod 601)), advance 1 g).
Proof.
  intros H. unfold get_glove_embedding. rewrite H. unfold bind.
  by rewrite randint_0_600_value.
Qed.

Lemma replicate_50_IZR_inj (a b : Z) :
  replicate 50 (IZR a) = replicate 50 (IZR b) → a = b.
Proof. intros H. apply eq_IZR. by injection H. Qed.

(** X7: The fallback vector is not cached: two lookups of the same missing
    word, one after the other, each draw a number, and they return the
    same vector only when the two draws give the same number. *)
Theorem get_glove_embedding_not_cached
    (table : gmap string ndarray) (word : string) (g : generator) :
  table !! word = None →
  ∃ v1 v2,
    get_glove_embedding table word g = OK (v1, advance 1 g) ∧
    get_glove_embedding table word (advance 1 g) = OK (v2, advance 2 g) ∧
    (v1 = v2 ↔ (g 0%nat mod 601 = g 1%nat mod 601)%Z).
Proof.
  intros H. eexists _, _.
  split; first by apply get_glove_embedding_missing_value.
  split; first by apply get_glove_embedding_missing_value.
  split.
  - apply replicate_50_IZR_inj.
  - unfold advance. simpl. by intros ->.
Qed.

Lemma get_glove_embedding_not_cached_witness :
  ∃ v1 v2,
    get_glove_embedding ∅ " " (λ n, Z.of_nat n) = OK (v1, advance 1 (λ n, Z.of_nat n)) ∧
    get_glove_embedding ∅ " " (advance 1 (λ n, Z.of_nat n))
      = OK (v2, advance 2 (λ n, Z.of_nat n)) ∧
    v1 ≠ v2.
Proof.
  destruct (get_glove_embedding_not_cached ∅ " " (λ n, Z.of_nat n))
    as (v1 & v2 & H1 & H2 & Hiff); first apply lookup_empty.
  exists v1, v2. split; first exact H1. split; first exact H2.
  intros E. apply Hiff in E. discriminate E.
Defined.

Lemma get_glove_embedding_advance
    (table : gmap string ndarray) (word : string) (g g' : generator)
    (e : ndarray) :
  get_glove_embedding table word g = OK (e, g') →
  ∀ i, g' i = g (draws_of table word + i)%nat.
Proof.
  unfold draws_of. destruct (table !! word) as [v|] eqn:Hw; intros H i.
  - rewrite (get_glove_embedding_found _ _ _ _ Hw) in H.
    by injection H as _ <-.
  - rewrite (get_glove_embedding_missing_value _ _ _ Hw) in H.
    by injection H as _ <-.
Qed.

Lemma get_connections_loop_advance
    (table : gmap string ndarray) (pairs : list (string * string))
    (acc cs : list ndarray) (g g' : generator) :
  get_connections_loop table pairs acc g = OK (cs, g') →
  ∀ i, g' i = g (draws_of_pairs table pairs + i)%nat.
Proof.
  revert acc g. induction pairs as [|[w1 w2] pairs IH]; intros acc g H i.
  - by injection H as _ <-.
  - cbn [get_connections_loop] in H. unfold bind at 1 in H.
    destruct (get_glove_embedding table w1 g) as [[e1 g1]|] eqn:H1;
      last done.
    unfold bind at 1 in H.
    destruct (get_glove_embedding table w2 g1) as [[e2 g2]|] eqn:H2;
      last done.
    unfold bind at 1, lift in H.
    destruct (np_sub e1 e2) as [c|]; last done.
    rewrite (IH _ _ H i).
    rewrite (get_glove_embedding_advance _ _ _ _ _ H2).
    rewrite (get_glove_embedding_advance _ _ _ _ _ H1).
    cbn [draws_of_pairs]. f_equal. lia.
Qed.

Lemma draws_of_pairs_none
    (table : gmap string ndarray) (pairs : list (string * string)) :
  Forall (λ p, is_Some (table !! p.1) ∧ is_Some (table !! p.2)) pairs →
  draws_of_pairs table pairs = 0%nat.
Proof.
  induction 1 as [|[w1 w2] pairs [[? H1] [? H2]] _ IH]; first done.
  cbn [draws_of_pairs]. unfold draws_of. simpl in H1, H2.
  by rewrite H1, H2, IH.
Qed.

Lemma draws_of_pairs_all
    (table : gmap string ndarray) (pairs : list (string * string)) :
  Forall (λ p, table !! p.1 = None ∧ table !! p.2 = None) pairs →
  draws_of_pairs table pairs = (2 * length pairs)%nat.
Proof.
  induction 1 as [|[w1 w2] pairs [H1 H2] _ IH]; first done.
  cbn [draws_of_pairs]. unfold draws_of. simpl in H1, H2.
  rewrite H1, H2, IH. simpl. lia.
Qed.

Lemma Forall_zip_tail {A} (P : A → Prop) (l : list A) :
  Forall P l → Forall (λ p, P p.1 ∧ P p.2) (zip l (tail l)).
Proof.
  intros H. apply Forall_lookup. intros i [x y] Hi.
  apply lookup_zip_with_Some in Hi as (x' & y' & [= <- <-] & Hx & Hy).
  rewrite lookup_tail in Hy. simpl.
  rewrite Forall_lookup in H. split; by eapply H.
Qed.

Lemma length_zip_tail {A} (l : list A) :
  length (zip l (tail l)) = (length l - 1)%nat.
Proof. rewrite length_zip_with. destruct l; cbn [length tail]; lia. Qed.

(** X8: [get_connections] draws one number for each lookup of a missing
    word: none when every word is in the table, and two for each
    transition when no word is, since every word but the first and the
    last is looked up twice. *)
Theorem get_connections_draws
    (table : gmap string ndarray) (paragraph : list string)
    (g : generator) :
  (∀ w v, table !! w = Some v → length v = 50%nat) →
  ∃ cs g',
    get_connections table paragraph g = OK (cs, g') ∧
    (∀ i, g' i
          = g (draws_of_pairs table (zip paragraph (tail paragraph)) + i)%nat)
    ∧
    (Forall (λ w, is_Some (table !! w)) paragraph → ∀ i, g' i = g i) ∧
    (Forall (λ w, table !! w = None) paragraph →
     ∀ i, g' i = g (2 * (length paragraph - 1) + i)%nat).
Proof.
  intros Hdim.
  destruct (get_connections_total table Hdim paragraph g)
    as (cs & g' & Hrun & _).
  exists cs, g'. split; first done.
  pose proof (get_connections_loop_advance _ _ _ _ _ _ Hrun) as Hadv.
  split; first done. split.
  - intros Hall i. rewrite Hadv, draws_of_pairs_none; first done.
    by apply (Forall_zip_tail (λ w, is_Some (table !! w))).
  - intros Hall i. rewrite Hadv, draws_of_pairs_all.
    + by rewrite length_zip_tail.
    + by apply (Forall_zip_tail (λ w, table !! w = None)).
Qed.

Lemma get_connections_draws_witness :
  ∃ cs g',
    get_connections ∅ ["a"; " "; "b"] (λ n, Z.of_nat n) = OK (cs, g') ∧
    ∀ i, g' i = Z.of_nat (4 + i).
Proof.
  destruct (get_connections_draws ∅ ["a"; " "; "b"] (λ n, Z.of_nat n))
    as (cs & g' & Hrun & _ & _ & Hall).
  - intros w v H. by rewrite lookup_empty in H.
  - exists cs, g'. split; first exact Hrun.
    intros i. apply Hall. repeat constructor.
Defined.

Lemma get_connections_spec
    (table : gmap string ndarray) (paragraph : list string)
    (g : generator) :
  (∀ w v, table !! w = Some v → length v = 50%nat) →
  ∃ cs g',
    get_connections table paragraph g = OK (cs, g') ∧
    length cs = (length paragraph - 1)%nat ∧
    ∀ i c, cs !! i = Some c →
      ∃ w1 w2, paragraph !! i = Some w1 ∧ paragraph !! S i = Some w2 ∧
               transition_of table w1 w2 c.
Proof.
  intros Hdim. unfold get_connections.
  destruct (get_connections_loop_spec table Hdim
              (zip paragraph (tail paragraph)) [] g)
    as (cs & g' & Hrun & Hlen & Hcs).
  exists cs, g'. split; first exact Hrun.
  split; first by rewrite Hlen, length_zip_tail.
  intros i c Hi. destruct (Hcs i c Hi) as (w1 & w2 & Hz & Ht).
  apply lookup_zip_with_Some in Hz as (x & y & [= -> ->] & Hx & Hy).
  rewrite lookup_tail in Hy. by exists x, y.
Qed.

Lemma zip_with_Rminus_self (e : ndarray) :
  zip_with Rminus e e = replicate (length e) 0.
Proof.
  induction e as [|x e IH]; first done.
  cbn [zip_with length replicate]. rewrite IH. f_equal. lra.
Qed.

(** X9: Two adjacent words that the table maps to the same vector, in
    particular a word of the table that is repeated, give the transition
    of 50 zeros. *)
Theorem get_connections_same_embedding
    (table : gmap string ndarray) (paragraph : list string)
    (g : generator) (i : nat) (w1 w2 : string) (e : ndarray) :
  (∀ w v, table !! w = Some v → length v = 50%nat) →
  paragraph !! i = Some w1 → paragraph !! S i = Some w2 →
  table !! w1 = Some e → table !! w2 = Some e →
  ∃ cs g',
    get_connections table paragraph g = OK (cs, g') ∧
    cs !! i = Some (replicate 50 0).
Proof.
  intros Hdim H1 H2 He1 He2.
  destruct (get_connections_spec table paragraph g Hdim)
    as (cs & g' & Hrun & Hlen & Hcs).
  exists cs, g'. split; first done.
  assert (Hi : (i < length cs)%nat).
  { apply lookup_lt_Some in H2. lia. }
  apply lookup_lt_is_Some_2 in Hi as [c Hc].
  destruct (Hcs i c Hc) as (x & y & Hx & Hy & Ht).
  assert (x = w1) as -> by congruence. assert (y = w2) as -> by congruence.
  destruct Ht as (g1 & a1 & g2 & a2 & g3 & Ha1 & Ha2 & ->).
  rewrite (get_glove_embedding_found _ _ _ _ He1) in Ha1.
  rewrite (get_glove_embedding_found _ _ _ _ He2) in Ha2.
  injection Ha1 as <- _. injection Ha2 as <- _.
  rewrite zip_with_Rminus_self, (Hdim w1 e He1) in Hc. exact Hc.
Qed.

Lemma get_connections_same_embedding_witness :
  ∃ cs g',
    get_connections (<["o" := replicate 50 1]> ∅) ["o"; "o"] (λ _, 0%Z)
      = OK (cs, g') ∧
    cs !! 0%nat = Some (replicate 50 0).
Proof.
  apply (get_connections_same_embedding _ _ _ 0 "o" "o" (replicate 50 1)).
  - intros w v H. apply lookup_insert_Some in H as [[_ <-]|[_ H]].
    + by rewrite length_replicate.
    + by rewrite lookup_empty in H.
  - done.
  - done.
  - apply lookup_insert_eq.
  - apply lookup_insert_eq.
Defined.

Lemma get_glove_embedding_missing_inv
    (table : gmap string ndarray) (word : string) (g g' : generator)
    (e : ndarray) :
  table !! word = None → get_glove_embedding table word g = OK (e, g') →
  ∃ z, e = replicate 50 (IZR z) ∧ (0 ≤ z ≤ 600)%Z.
Proof.
  intros Hw H.
  destruct (get_glove_embedding_missing table word g Hw) as (z & Hz & Hr).
  exists z. split; last done. congruence.
Qed.

Lemma zip_with_Rminus_replicate (n : nat) (a b : R) :
  zip_with Rminus (replicate n a) (replicate n b) = replicate n (a - b).
Proof. induction n as [|n IH]; first done. simpl. by rewrite IH. Qed.

(** X10: The transition between two adjacent words that are both missing from
    the table, also when they are the same word, is a vector of 50 equal
    components: the difference of the two numbers drawn, an integer
    between -600 and 600. *)
Theorem get_connections_missing_words
    (table : gmap string ndarray) (paragraph : list string)
    (g : generator) (i : nat) (w1 w2 : string) :
  (∀ w v, table !! w = Some v → length v = 50%nat) →
  paragraph !! i = Some w1 → paragraph !! S i = Some w2 →
  table !! w1 = None → table !! w2 = None →
  ∃ cs g' z,
    get_connections table paragraph g = OK (cs, g') ∧
    cs !! i = Some (replicate 50 (IZR z)) ∧ (-600 ≤ z ≤ 600)%Z.
Proof.
  intros Hdim H1 H2 He1 He2.
  destruct (get_connections_spec table paragraph g Hdim)
    as (cs & g' & Hrun & Hlen & Hcs).
  assert (Hi : (i < length cs)%nat).
  { apply lookup_lt_Some in H2. lia. }
  apply lookup_lt_is_Some_2 in Hi as [c Hc].
  destruct (Hcs i c Hc) as (x & y & Hx & Hy & Ht).
  assert (x = w1) as -> by congruence. assert (y = w2) as -> by congruence.
  destruct Ht as (g1 & a1 & g2 & a2 & g3 & Ha1 & Ha2 & ->).
  destruct (get_glove_embedding_missing_inv _ _ _ _ _ He1 Ha1)
    as (z1 & -> & Hr1).
  destruct (get_glove_embedding_missing_inv _ _ _ _ _ He2 Ha2)
    as (z2 & -> & Hr2).
  exists cs, g', (z1 - z2)%Z. split; first done.
  split; last lia.
  rewrite zip_with_Rminus_replicate, <-minus_IZR in Hc. exact Hc.
Qed.

Lemma get_connections_missing_words_witness :
  ∃ cs g' z,
    get_connections ∅ [" "; " "] (λ n, Z.of_nat n) = OK (cs, g') ∧
    cs !! 0%nat = Some (replicate 50 (IZR z)) ∧ (-600 ≤ z ≤ 600)%Z.
Proof.
  apply (get_connections_missing_words ∅ _ _ 0 " " " ").
  - intros w v H. by rewrite lookup_empty in H.
  - done.
  - done.
  - apply lookup_empty.
  - apply lookup_empty.
Defined.

(** ** More on the corpus *)

Lemma length_chars (s : string) : length (chars s) = String.length s.
Proof. induction s as [|c s IH]; first done. simpl. by rewrite IH. Qed.

Lemma process_text_loop_length
    (table : gmap string ndarray) (paragraphs : list string)
    (acc : list ndarray) (g : generator) :
  (∀ w v, table !! w = Some v → length v = 50%nat) →
  Forall dim50 acc →
  ∃ cs g', process_text_loop table paragraphs acc g = OK (cs, g') ∧
           Forall dim50 cs ∧
           length cs = (length acc + corpus_size paragraphs)%nat.
Proof.
  intros Hdim. revert acc g.
  induction paragraphs as [|p ps IH]; intros acc g Hacc.
  - exists acc, g. split; first done. split; first done. simpl. lia.
  - cbn [process_text_loop corpus_size].
    destruct (decide (String.length p < 100)%nat) as [Hs|Hl].
    + destruct (decide (qualifies p)) as [Hq|_];
        first (unfold qualifies in Hq; lia).
      by apply IH.
    + destruct (decide (qualifies p)) as [_|Hq];
        last (unfold qualifies in Hq; lia).
      unfold bind.
      destruct (get_connections_total table Hdim (chars p) g)
        as (cs & g' & Hrun & Hcs).
      destruct (get_connections_spec table (chars p) g Hdim)
        as (cs0 & g0 & Hrun0 & Hlen & _).
      rewrite Hrun in Hrun0. injection Hrun0 as <- <-.
      rewrite Hrun.
      destruct (IH (acc ++ cs) g') as (r & g'' & Hr & Hd & Hl').
      { apply Forall_app. by split. }
      exists r, g''. split; first done. split; first done.
      rewrite Hl', length_app, Hlen, length_chars. lia.
Qed.

Lemma corpus_size_qualifies (paragraphs : list string) (p : string) :
  p ∈ paragraphs → qualifies p → (99 ≤ corpus_size paragraphs)%nat.
Proof.
  intros Hin Hq. induction paragraphs as [|p' ps IH];
    first by apply elem_of_nil in Hin.
  cbn [corpus_size]. apply elem_of_cons in Hin as [<-|Hin].
  - destruct (decide (qualifies p)); last done.
    unfold qualifies in Hq. lia.
  - specialize (IH Hin). destruct (decide (qualifies p')); lia.
Qed.

(** X11: Under a table of 50-component vectors [process_text] returns one
    vector of 50 components for each pair of adjacent characters of each
    paragraph of at least 100 characters, so at least 99 vectors as soon
    as one paragraph qualifies. *)
Theorem process_text_corpus
    (table : gmap string ndarray) (doc : string) (g : generator) :
  (∀ w v, table !! w = Some v → length v = 50%nat) →
  ∃ cs g',
    process_text table doc g = OK (cs, g') ∧
    Forall (λ c, length c = 50%nat) cs ∧
    length cs = corpus_size (split newline doc) ∧
    ((∃ p, p ∈ split newline doc ∧ (100 ≤ String.length p)%nat) →
     (99 ≤ length cs)%nat).
Proof.
  intros Hdim. unfold process_text.
  destruct (process_text_loop_length table (split newline doc) [] g Hdim)
    as (cs & g' & Hrun & Hd & Hl); first done.
  exists cs, g'. split; first done. split; first done.
  split; first done.
  intros (p & Hp & Hq). rewrite Hl. simpl.
  by apply (corpus_size_qualifies _ p).
Qed.

Lemma process_text_corpus_witness :
  ∃ cs g',
    process_text ∅ lion_paragraph (λ _, 9%Z) = OK (cs, g') ∧
    length cs = 126%nat.
Proof.
  destruct (process_text_corpus ∅ lion_paragraph (λ _, 9%Z))
    as (cs & g' & Hrun & _ & Hl & _).
  - intros w v H. by rewrite lookup_empty in H.
  - exists cs, g'. split; first exact Hrun.
    rewrite Hl. vm_compute. reflexivity.
Defined.

(** ** The pairs of a paragraph *)

Lemma density_pairs_nonneg (connections pcs : list ndarray) :
  connections ≠ [] → Forall dim50 connections → Forall dim50 pcs →
  ∃ pairs,
    density_pairs connections pcs = OK pairs ∧
    map fst pairs = pcs ∧ Forall (λ p, nonneg_float p.2) pairs.
Proof.
  intros Hne Hc.
  induction 1 as [|d pcs Hd _ (pairs & IH & Hf & Hnn)].
  - by exists [].
  - cbn [density_pairs].
    destruct (density_nonneg connections d 3) as (m & -> & Hm); [|done|lia|].
    { eapply Forall_impl; first exact Hc.
      intros arr Harr. unfold dim50 in *. congruence. }
    cbn [res_bind]. rewrite IH. cbn [res_bind].
    exists ((d, Fin m) :: pairs).
    split; first done. cbn [map fst]. rewrite Hf.
    split; first done. by constructor.
Qed.

Lemma density_pairs_empty_corpus (pcs : list ndarray) :
  ∃ pairs,
    density_pairs [] pcs = OK pairs ∧
    map fst pairs = pcs ∧ Forall (λ p, p.2 = NaN) pairs.
Proof.
  induction pcs as [|d pcs (pairs & IH & Hf & Hnan)]; first by exists [].
  cbn [density_pairs]. rewrite IH.
  exists ((d, NaN) :: pairs). split; first done.
  cbn [map fst]. rewrite Hf. split; first done. by constructor.
Qed.

(** X16: Under a table of 50-component vectors and against a corpus of
    50-component vectors, [tokenized_probabilities] returns one pair for
    each transition of the paragraph, in order, whose first component is
    the transition that [get_connections] returns from the same
    generator.  Against a corpus that is not empty every density in the
    pairs is a number that is not [nan] and not negative; against the
    empty corpus every density is [nan]. *)
Theorem tokenized_probabilities_pairs
    (table : gmap string ndarray) (paragraph : list string)
    (connections : list ndarray) (g : generator) :
  (∀ w v, table !! w = Some v → length v = 50%nat) →
  Forall (λ c, length c = 50%nat) connections →
  ∃ pairs g',
    tokenized_probabilities table paragraph connections g = OK (pairs, g') ∧
    get_connections table paragraph g = OK (map fst pairs, g') ∧
    length pairs = (length paragraph - 1)%nat ∧
    (connections ≠ [] → Forall (λ p, nonneg_float p.2) pairs) ∧
    (connections = [] → Forall (λ p, p.2 = NaN) pairs).
Proof.
  intros Hdim Hc. unfold tokenized_probabilities, bind.
  destruct (get_connections_total table Hdim paragraph g)
    as (cs & g' & Hrun & Hcs).
  destruct (get_connections_spec table paragraph g Hdim)
    as (cs0 & g0 & Hrun0 & Hlen & _).
  rewrite Hrun in Hrun0. injection Hrun0 as <- <-. rewrite Hrun.
  destruct connections as [|c connections].
  - destruct (density_pairs_empty_corpus cs) as (pairs & Hd & Hf & Hnan).
    unfold lift. rewrite Hd. exists pairs, g'.
    split; first done. split; first by rewrite Hf.
    split; first by rewrite <-Hlen, <-Hf, length_map.
    split; [done | by intros _].
  - destruct (density_pairs_nonneg (c :: connections) cs)
      as (pairs & Hd & Hf & Hnn); [done..|].
    unfold lift. rewrite Hd. exists pairs, g'.
    split; first done. split; first by rewrite Hf.
    split; first by rewrite <-Hlen, <-Hf, length_map.
    split; [by intros _ | done].
Qed.

Lemma tokenized_probabilities_pairs_witness :
  ∃ pairs g',
    tokenized_probabilities ∅ ["a"; " "; "b"] [replicate 50 1]
      (λ n, Z.of_nat n) = OK (pairs, g') ∧
    length pairs = 2%nat ∧ Forall (λ p, nonneg_float p.2) pairs.
Proof.
  destruct (tokenized_probabilities_pairs ∅ ["a"; " "; "b"]
              [replicate 50 1] (λ n, Z.of_nat n))
    as (pairs & g' & Hrun & _ & Hlen & Hnn & _).
  - intros w v H. by rewrite lookup_empty in H.
  - by repeat constructor.
  - exists pairs, g'. split; first exact Hrun. split; first exact Hlen.
    by apply Hnn.
Defined.

(** ** Splitting on a character *)

Lemma split_nonempty (sep : ascii) (s : string) : split sep s ≠ [].
Proof.
  destruct s as [|c s]; first done. cbn [split].
  destruct (decide (c = sep)); first done.
  by destruct (split sep s).
Qed.

Lemma split_no_sep (sep : ascii) (s piece : string) :
  piece ∈ split sep s → ¬ has_char sep piece.
Proof.
  revert piece. induction s as [|c s IH]; intros piece Hin.
  - apply list_elem_of_singleton in Hin as ->. by intros [].
  - cbn [split] in Hin. destruct (decide (c = sep)) as [->|Hc].
    + apply elem_of_cons in Hin as [->|Hin]; [by intros [] | by apply IH].
    + destruct (split sep s) as [|p ps] eqn:E;
        first by apply split_nonempty in E.
      apply elem_of_cons in Hin as [->|Hin].
      * intros [?|Hp]; first done. apply (IH p); [left | done].
      * apply IH. by right.
Qed.

Lemma join_split (sep : ascii) (s : string) : join sep (split sep s) = s.
Proof.
  induction s as [|c s IH]; first done.
  cbn [split]. destruct (decide (c = sep)) as [->|Hc].
  - destruct (split sep s) as [|p ps] eqn:E;
      first by apply split_nonempty in E.
    change (join sep (EmptyString :: p :: ps))
      with (String sep (join sep (p :: ps))).
    by rewrite IH.
  - destruct (split sep s) as [|p ps] eqn:E;
      first by apply split_nonempty in E.
    destruct ps as [|p' ps].
    + change (String c (join sep [p]) = String c s). by rewrite IH.
    + change (String c (join sep (p :: p' :: ps)) = String c s).
      by rewrite IH.
Qed.

(** X18: The paragraphs the two loops go through are the lines of the
    document: there is at least one, none has a newline in it, and joined
    with newlines they give the document back. *)
Theorem split_newline_lines (document : string) :
  split newline document ≠ [] ∧
  (∀ p, p ∈ split newline document → ¬ has_char newline p) ∧
  join newline (split newline document) = document.
Proof.
  split; first apply split_nonempty.
  split; first (intros p; apply split_no_sep).
  apply join_split.
Qed.

(** ** The table loaded from the file *)

Lemma res_map_length {A B} (f : A → res B) (l : list A) (ys : list B) :
  res_map f l = OK ys → length ys = length l.
Proof.
  revert ys. induction l as [|x l IH]; intros ys H.
  - by injection H as <-.
  - cbn [res_map] in H. destruct (f x) as [y|]; last done.
    cbn [res_bind] in H. destruct (res_map f l) as [ys'|]; last done.
    injection H as <-. simpl. by rewrite (IH ys').
Qed.

Lemma res_map_total {A B} (f : A → res B) (l : list A) :
  Forall (λ x, ∃ y, f x = OK y) l → ∃ ys, res_map f l = OK ys.
Proof.
  induction 1 as [|x l [y Hy] _ [ys IH]]; first by exists [].
  cbn [res_map]. rewrite Hy, IH. by eexists.
Qed.

Section GloveFileProperties.

Variable float32 : string → option R.

Lemma index_split_0 (line : string) :
  index (split space line) 0 = OK (first_field line).
Proof.
  unfold index, first_field.
  pose proof (split_nonempty space line).
  by destruct (split space line).
Qed.

Lemma load_glove_file_loop_cons
    (line : string) (rest : list string) (m : gmap string ndarray) :
  load_glove_file_loop float32 (line :: rest) m
  = res_bind (np_asarray_float32 float32 (other_fields line)) (λ e,
      load_glove_file_loop float32 rest (<[first_field line := e]> m)).
Proof. cbn [load_glove_file_loop]. by rewrite index_split_0. Qed.

(** What the table holds for a word after the loop: the vector of the
    last line that starts with the word, or what it held before when no
    line does. *)
Lemma load_glove_file_loop_lookup
    (lines : list string) (m model : gmap string ndarray)
    (w : string) (v : ndarray) :
  load_glove_file_loop float32 lines m = OK model →
  model !! w = Some v ↔
    (∃ pre line post,
       lines = pre ++ line :: post ∧ first_field line = w ∧
       np_asarray_float32 float32 (other_fields line) = OK v ∧
       Forall (λ l, first_field l ≠ w) post) ∨
    (Forall (λ l, first_field l ≠ w) lines ∧ m !! w = Some v).
Proof.
  revert m. induction lines as [|line rest IH]; intros m Hload.
  - injection Hload as <-. split.
    + intros H. by right.
    + intros [(pre & l & post & E & _)|[_ H]]; last done.
      by destruct pre.
  - rewrite load_glove_file_loop_cons in Hload.
    destruct (np_asarray_float32 float32 (other_fields line)) as [e|] eqn:He;
      last done.
    cbn [res_bind] in Hload. rewrite (IH _ Hload). split.
    + intros [(pre & l & post & -> & Hw & Hv & Hpost)|[Hrest Hm]].
      * left. by exists (line :: pre), l, post.
      * destruct (decide (first_field line = w)) as [Hw|Hw].
        -- left. exists [], line, rest. rewrite Hw in Hm.
           rewrite lookup_insert_eq in Hm. injection Hm as <-. done.
        -- right. rewrite lookup_insert_ne in Hm by done.
           split; [by constructor | done].
    + intros [(pre & l & post & E & Hw & Hv & Hpost)|[Hall Hm]].
      * destruct pre as [|l0 pre].
        -- injection E as <- <-. right. split; first done.
           rewrite Hw, lookup_insert_eq. congruence.
        -- injection E as <- ->. left. by exists pre, l, post.
      * apply Forall_cons in Hall as [Hw Hrest]. right.
        split; first done. by rewrite lookup_insert_ne.
Qed.

(** X19: After [load_glove_file] the table maps a word to the numbers of the
    last line of the file that starts with the word, and holds nothing
    for a word no line starts with: a later line for the same word
    replaces an earlier one. *)
Theorem load_glove_file_lookup
    (lines : list string) (model : gmap string ndarray)
    (w : string) (v : ndarray) :
  load_glove_file float32 lines = OK model →
  model !! w = Some v ↔
    ∃ pre line post,
      lines = pre ++ line :: post ∧ first_field line = w ∧
      np_asarray_float32 float32 (other_fields line) = OK v ∧
      Forall (λ l, first_field l ≠ w) post.
Proof.
  intros Hload. unfold load_glove_file in Hload.
  rewrite (load_glove_file_loop_lookup _ _ _ w v Hload). split.
  - intros [H|[_ H]]; first done. by rewrite lookup_empty in H.
  - intros H. by left.
Qed.

(** X20: A file whose lines all have a word and [d] fields that are numbers
    loads without an error, into a table whose vectors all have [d]
    components. *)
Theorem load_glove_file_dim (lines : list string) (d : nat) :
  Forall (λ line, length (other_fields line) = d ∧
                  Forall (λ f, is_Some (float32 f)) (other_fields line))
         lines →
  ∃ model,
    load_glove_file float32 lines = OK model ∧
    ∀ w v, model !! w = Some v → length v = d.
Proof.
  intros Hwf.
  assert (Htot : ∀ m, ∃ model, load_glove_file_loop float32 lines m = OK model).
  { induction Hwf as [|line rest [_ Hf] _ IH]; intros m; first by exists m.
    rewrite load_glove_file_loop_cons.
    destruct (res_map_total
      (λ field, match float32 field with
                | Some x => OK x
                | None => Err ValueError
                end) (other_fields line)) as [e He].
    { eapply Forall_impl; first exact Hf.
      intros f [x Hx]. simpl. rewrite Hx. by exists x. }
    unfold np_asarray_float32. rewrite He. cbn [res_bind]. apply IH. }
  destruct (Htot ∅) as [model Hload]. exists model. split; first done.
  intros w v Hv.
  apply (load_glove_file_loop_lookup _ _ _ w v Hload) in Hv
    as [(pre & line & post & -> & _ & Hp & _)|[_ H]];
    last by rewrite lookup_empty in H.
  apply Forall_app in Hwf as [_ Hwf].
  apply Forall_cons in Hwf as [[Hd _] _].
  apply res_map_length in Hp. congruence.
Qed.

Lemma first_field_no_space (line : string) :
  ¬ has_char space (first_field line).
Proof.
  apply (split_no_sep space line). unfold first_field.
  pose proof (split_nonempty space line).
  destruct (split space line); [done | left].
Qed.

(** X21: No word of the loaded table has a space in it, so the lookup of a
    space, which the transition builder makes for every space of a
    paragraph, always falls back to a fresh random vector. *)
Theorem load_glove_file_space
    (lines : list string) (model : gmap string ndarray) (g : generator) :
  load_glove_file float32 lines = OK model →
  (∀ w, has_char space w → model !! w = None) ∧
  get_glove_embedding model (String space EmptyString) g
  = OK (replicate 50 (IZR (g 0%nat mod 601)), advance 1 g).
Proof.
  intros Hload.
  assert (Hkeys : ∀ w, has_char space w → model !! w = None).
  { intros w Hw. destruct (model !! w) as [v|] eqn:E; last done.
    apply (load_glove_file_loop_lookup _ _ _ w v Hload) in E
      as [(pre & line & post & _ & <- & _)|[_ H]].
    - by apply first_field_no_space in Hw.
    - by rewrite lookup_empty in H. }
  split; first done.
  apply get_glove_embedding_missing_value, Hkeys. by left.
Qed.

Lemma np_asarray_float32_error (fields : list string) (e : pyerr) :
  np_asarray_float32 float32 fields = Err e → e = ValueError.
Proof.
  unfold np_asarray_float32. induction fields as [|f fields IH]; first done.
  cbn [res_map]. destruct (float32 f); cbn [res_bind]; last congruence.
  destruct (res_map _ fields) as [ys|e']; first done.
  cbn [res_bind]. intros [= <-]. by apply IH.
Qed.

(** X22: A line with a field after the word that is not a number makes
    [load_glove_file] raise [ValueError]: no table is returned, whatever
    the other lines are. *)
Theorem load_glove_file_bad_field
    (pre post : list string) (line field : string) :
  field ∈ other_fields line → float32 field = None →
  load_glove_file float32 (pre ++ line :: post) = Err ValueError.
Proof.
  intros Hin Hbad. unfold load_glove_file.
  generalize (∅ : gmap string ndarray).
  induction pre as [|l pre IH]; intros m.
  - cbn [app]. rewrite load_glove_file_loop_cons.
    unfold np_asarray_float32.
    rewrite (res_map_error _ _ field); [done| |done|by rewrite Hbad].
    intros y e. destruct (float32 y); [done | congruence].
  - cbn [app]. rewrite load_glove_file_loop_cons.
    destruct (np_asarray_float32 float32 (other_fields l)) as [e|e] eqn:He.
    + cbn [res_bind]. apply IH.
    + cbn [res_bind]. f_equal. by apply (np_asarray_float32_error _ _ He).
Qed.

End GloveFileProperties.

Lemma load_glove_file_lookup_witness :
  (<["a" := [0; 0]]> (<["a" := [0]]> ∅) : gmap string ndarray) !! "a"
    = Some [0; 0] ↔
  ∃ pre line post,
    ["a 1"; "a 1 2"] = pre ++ line :: post ∧ first_field line = "a" ∧
    np_asarray_float32 (λ _, Some 0) (other_fields line) = OK [0; 0] ∧
    Forall (λ l, first_field l ≠ "a") post.
Proof.
  apply (load_glove_file_lookup (λ _, Some 0) ["a 1"; "a 1 2"]).
  reflexivity.
Defined.

Lemma load_glove_file_dim_witness :
  ∃ model,
    load_glove_file (λ _, Some 0) ["a 1 2"; "b 3 4"] = OK model ∧
    ∀ w v, model !! w = Some v → length v = 2%nat.
Proof.
  apply (load_glove_file_dim (λ _, Some 0) ["a 1 2"; "b 3 4"] 2).
  repeat constructor; by eexists.
Defined.

Lemma load_glove_file_space_witness :
  get_glove_embedding (<["a" := [0]]> ∅) " " (λ _, 5%Z)
  = OK (replicate 50 (IZR (5 mod 601)), advance 1 (λ _, 5%Z)).
Proof.
  destruct (load_glove_file_space (λ _, Some 0) ["a 1"]
              (<["a" := [0]]> ∅) (λ _, 5%Z)) as [_ H].
  - reflexivity.
  - exact H.
Defined.

Lemma load_glove_file_bad_field_witness :
  load_glove_file (λ f, if decide (f = "x") then None else Some 0)
    (["a 1"] ++ "b x" :: ["c 2"])
  = Err ValueError.
Proof.
  apply (load_glove_file_bad_field _ ["a 1"] ["c 2"] "b x" "x").
  - left.
  - reflexivity.
Defined.

(** ** The draws of a run *)

Lemma process_text_loop_advance
    (table : gmap string ndarray) (paragraphs : list string)
    (acc cs : list ndarray) (g g' : generator) :
  process_text_loop table paragraphs acc g = OK (cs, g') →
  ∀ i, g' i = g (draws_of_paragraphs table paragraphs + i)%nat.
Proof.
  revert acc g. induction paragraphs as [|p ps IH]; intros acc g H i.
  - by injection H as _ <-.
  - cbn [process_text_loop draws_of_paragraphs] in *.
    destruct (decide (String.length p < 100)%nat) as [Hs|Hl].
    + destruct (decide (qualifies p)) as [Hq|_];
        first (unfold qualifies in Hq; lia).
      by rewrite (IH _ _ H i).
    + destruct (decide (qualifies p)) as [_|Hq];
        last (unfold qualifies in Hq; lia).
      unfold bind in H.
      destruct (get_connections table (chars p) g) as [[c g1]|] eqn:Hc;
        last done.
      rewrite (IH _ _ H i).
      rewrite (get_connections_loop_advance _ _ _ _ _ _ Hc).
      f_equal. lia.
Qed.

Lemma scoring_loop_advance
    (table : gmap string ndarray) (connections : list ndarray)
    (docs : list (nat * string)) (printed out : list (nat * npfloat))
    (g g' : generator) :
  scoring_loop table connections docs printed g = OK (out, g') →
  ∀ i, g' i = g (draws_of_paragraphs table (map snd docs) + i)%nat.
Proof.
  revert printed g. induction docs as [|[idx p] ds IH]; intros printed g H i.
  - by injection H as _ <-.
  - cbn [scoring_loop draws_of_paragraphs map snd] in *.
    destruct (decide (String.length p < 100)%nat) as [Hs|Hl].
    + destruct (decide (qualifies p)) as [Hq|_];
        first (unfold qualifies in Hq; lia).
      by rewrite (IH _ _ H i).
    + destruct (decide (qualifies p)) as [_|Hq];
        last (unfold qualifies in Hq; lia).
      unfold bind at 1, tokenized_probabilities, bind in H.
      destruct (get_connections table (chars p) g) as [[c g1]|] eqn:Hc;
        last done.
      unfold lift in H.
      destruct (density_pairs connections c) as [pairs|]; last done.
      rewrite (IH _ _ H i).
      rewrite (get_connections_loop_advance _ _ _ _ _ _ Hc).
      f_equal. lia.
Qed.

Lemma map_snd_imap_gen {A} (f : nat → A → nat * A) (l : list A) :
  (∀ i x, (f i x).2 = x) → map snd (imap f l) = l.
Proof.
  revert f. induction l as [|x l IH]; intros f Hf; first done.
  rewrite imap_cons. cbn [map]. rewrite Hf, IH; first done.
  intros i y. apply Hf.
Qed.

Lemma map_snd_enumerate {A} (l : list A) : map snd (enumerate l) = l.
Proof. by apply map_snd_imap_gen. Qed.

(** X17: A run looks every character of every qualifying paragraph up twice
    over, once to build the corpus and once more to score the paragraph:
    it makes twice the draws of one pass, so the transitions scored are
    computed from fallback values drawn afresh, not from those of the
    corpus. *)
Theorem main_draws
    (table : gmap string ndarray) (document : string) (g : generator) :
  (∀ w v, table !! w = Some v → length v = 50%nat) →
  ∃ out g',
    main table document g = OK (out, g') ∧
    ∀ i, g' i
         = g (2 * draws_of_paragraphs table (split newline document) + i)%nat.
Proof.
  intros Hdim.
  destruct (main_total table Hdim document g) as (out & g' & Hrun & _).
  exists out, g'. split; first done.
  unfold main, bind in Hrun.
  destruct (process_text table document g) as [[cs g1]|] eqn:Hp; last done.
  intros i.
  rewrite (scoring_loop_advance _ _ _ _ _ _ _ Hrun i), map_snd_enumerate.
  unfold process_text in Hp.
  rewrite (process_text_loop_advance _ _ _ _ _ _ Hp).
  f_equal. lia.
Qed.

Lemma main_draws_witness :
  ∃ out g',
    main ∅ lion_paragraph (λ n, Z.of_nat n) = OK (out, g') ∧
    ∀ i, g' i = Z.of_nat (504 + i).
Proof.
  destruct (main_draws ∅ lion_paragraph (λ n, Z.of_nat n))
    as (out & g' & Hrun & Hg).
  - intros w v H. by rewrite lookup_empty in H.
  - exists out, g'. split; first exact Hrun.
    intros i. rewrite Hg. f_equal.
Defined.

(** ** The scorer at [equal_vocab_probability = 0] *)

(** X15: With [equal_vocab_probability = 0] the baseline is the entropy of
    zero weights, so the score of every non-empty sequence is [nan]. *)
Theorem information_of_statement_zero_probability
    (doc : list (ndarray * npfloat)) :
  doc ≠ [] → information_of_statement doc (Fin 0) = NaN.
Proof.
  intros Hne. unfold information_of_statement.
  assert (Hrep : ∀ m k, map (λ _ : nat, Fin 0) (seq k m)
                        = map Fin (replicate m 0)).
  { induction m as [|m IH]; intros k; first done.
    cbn [seq map replicate]. by rewrite IH. }
  rewrite Hrep, entropy_zero_weights.
  - done.
  - by destruct doc.
  - by apply Forall_replicate.
Qed.

Lemma information_of_statement_zero_probability_witness :
  information_of_statement [([1; 2], Fin 4)] (Fin 0) = NaN.
Proof. by apply information_of_statement_zero_probability. Defined.
